(** * A hash-chained, append-only block list: model and properties

    Shallow embedding of the TypeScript module that implements
    [IBlockChain] / [IBlockChainBlock] (classes [ArrayBlockChain] and
    [BlockChainBlock]) together with the runtime primitives the module
    calls: [Buffer] Base64 conversion, the SHA-256 digest of
    [node:crypto], and the [Date] arithmetic of ECMA-262.

    Conventions.
    - JavaScript strings are Rocq [string]s, read as sequences of code
      units below 256.  All strings the module builds itself are ASCII.
    - A [Buffer] is a [list byte].
    - JavaScript numbers that are integers by construction (the block
      index, time values) are [Z]; array lengths stay far below 2^53, where
      [+ 1] on a double is exact.  The result of [Date.UTC], which may be
      [NaN], is a [number].
    - Arrays and closure variables are mutable and live in a [heap].
      Block objects are values: their private fields are [readonly], and
      [IBlockChainBlock], the only view of a block the module exports,
      declares every member [readonly].
    - [async] functions of the module contain no [await]: each call runs
      to completion before anything else does, so a call is one step.
    - A [console.log] call of the demonstration program is recorded as the
      list of its arguments. *)

From Stdlib Require Import ZArith NArith Lia List DecimalString DecimalZ.
From Stdlib.Strings Require Import String Ascii Byte.
From stdpp Require Import base option list gmap strings.

Open Scope Z_scope.

(** ** Bytes *)

Definition byte_to_Z (b : byte) : Z := Z.of_N (Byte.to_N b).

Definition byte_of_Z (z : Z) : byte :=
  default x00 (Byte.of_N (Z.to_N (z mod 256))).

Definition char_code (c : ascii) : Z := Z.of_N (N_of_ascii c).

Definition char_of_code (z : Z) : ascii := ascii_of_N (Z.to_N (z mod 256)).

(** ** Base64, as [Buffer] implements it *)

Module Base64.

Definition alphabet : string :=
  "ABCDEFGHIJKLMNOPQRSTUVWXYZabcdefghijklmnopqrstuvwxyz0123456789+/".

Definition pad : ascii := "="%char.

(** The character of a sextet. *)
Definition encode_sextet (n : Z) : ascii :=
  match String.get (Z.to_nat n) alphabet with
  | Some c => c
  | None => pad
  end.

(** [buf.toString('base64')]: RFC 4648 with padding. *)
Fixpoint encode (bs : list byte) : string :=
  match bs with
  | [] => EmptyString
  | [b0] =>
      let n0 := byte_to_Z b0 in
      String (encode_sextet (n0 / 4))
        (String (encode_sextet (n0 mod 4 * 16))
           (String pad (String pad EmptyString)))
  | [b0; b1] =>
      let n0 := byte_to_Z b0 in
      let n1 := byte_to_Z b1 in
      String (encode_sextet (n0 / 4))
        (String (encode_sextet (n0 mod 4 * 16 + n1 / 16))
           (String (encode_sextet (n1 mod 16 * 4))
              (String pad EmptyString)))
  | b0 :: b1 :: b2 :: rest =>
      let n0 := byte_to_Z b0 in
      let n1 := byte_to_Z b1 in
      let n2 := byte_to_Z b2 in
      String (encode_sextet (n0 / 4))
        (String (encode_sextet (n0 mod 4 * 16 + n1 / 16))
           (String (encode_sextet (n1 mod 16 * 4 + n2 / 64))
              (String (encode_sextet (n2 mod 64))
                 (encode rest))))
  end.

(** The decoder's table: both the standard and the URL-safe alphabet
    are legal; every other character is not. *)
Definition unbase64 (c : ascii) : option Z :=
  let n := char_code c in
  if (65 <=? n) && (n <=? 90) then Some (n - 65)
  else if (97 <=? n) && (n <=? 122) then Some (n - 71)
  else if (48 <=? n) && (n <=? 57) then Some (n + 4)
  else if (n =? 43) || (n =? 45) then Some 62
  else if (n =? 47) || (n =? 95) then Some 63
  else None.

(** The decoder walks the string, skips characters that are not legal
    and stops at the first ['=']. *)
Fixpoint legal_sextets (s : string) : list Z :=
  match s with
  | EmptyString => []
  | String c s' =>
      match unbase64 c with
      | Some n => n :: legal_sextets s'
      | None => if Ascii.eqb c pad then [] else legal_sextets s'
      end
  end.

(** Four sextets give three bytes; a trailing group of two or three
    sextets gives one or two bytes; a single trailing sextet gives
    nothing. *)
Fixpoint decode_sextets (l : list Z) : list byte :=
  match l with
  | s0 :: s1 :: s2 :: s3 :: rest =>
      byte_of_Z (s0 * 4 + s1 / 16)
        :: byte_of_Z (s1 mod 16 * 16 + s2 / 4)
        :: byte_of_Z (s2 mod 4 * 64 + s3)
        :: decode_sextets rest
  | [s0; s1; s2] =>
      [byte_of_Z (s0 * 4 + s1 / 16); byte_of_Z (s1 mod 16 * 16 + s2 / 4)]
  | [s0; s1] => [byte_of_Z (s0 * 4 + s1 / 16)]
  | _ => []
  end.

(** [Buffer.from(s, 'base64')]. *)
Definition decode (s : string) : list byte :=
  decode_sextets (legal_sextets s).

End Base64.

(** ** UTF-8 of a string of code units below 256 *)

Definition utf8_encode_char (c : ascii) : list byte :=
  let n := char_code c in
  if n <? 128 then [byte_of_Z n]
  else [byte_of_Z (192 + n / 64); byte_of_Z (128 + n mod 64)].

Fixpoint utf8_encode (s : string) : list byte :=
  match s with
  | EmptyString => []
  | String c s' => utf8_encode_char c ++ utf8_encode s'
  end.

(** ** Numbers and their rendering in a template literal *)

Inductive number : Type :=
| Num (z : Z)
| NaN.

(** [Number::toString] of an integer below 10^21 in magnitude. *)
Definition Z_to_string (z : Z) : string :=
  NilZero.string_of_int (Z.to_int z).

Definition number_to_string (x : number) : string :=
  match x with
  | Num z => Z_to_string z
  | NaN => "NaN"
  end.

(** ** SHA-256 (FIPS 180-4), the digest behind [crypto.createHash('sha256')] *)

Module SHA256.

Definition mask32 : Z := 4294967295.

Definition add32 (x y : Z) : Z := Z.land (x + y) mask32.

Definition rotr (n x : Z) : Z :=
  Z.land (Z.lor (Z.shiftr x n) (Z.shiftl x (32 - n))) mask32.

Definition shr (n x : Z) : Z := Z.shiftr x n.

Definition not32 (x : Z) : Z := Z.lxor x mask32.

Definition Ch (x y z : Z) : Z := Z.lxor (Z.land x y) (Z.land (not32 x) z).

Definition Maj (x y z : Z) : Z :=
  Z.lxor (Z.lxor (Z.land x y) (Z.land x z)) (Z.land y z).

Definition Sigma0 (x : Z) : Z :=
  Z.lxor (Z.lxor (rotr 2 x) (rotr 13 x)) (rotr 22 x).

Definition Sigma1 (x : Z) : Z :=
  Z.lxor (Z.lxor (rotr 6 x) (rotr 11 x)) (rotr 25 x).

Definition sigma0 (x : Z) : Z :=
  Z.lxor (Z.lxor (rotr 7 x) (rotr 18 x)) (shr 3 x).

Definition sigma1 (x : Z) : Z :=
  Z.lxor (Z.lxor (rotr 17 x) (rotr 19 x)) (shr 10 x).

(** FIPS 180-4, 4.2.2 and 5.3.3: the round constants are the first 32
    bits of the fractional parts of the cube roots of the first 64
    primes, the initial hash value those of the square roots of the
    first 8 primes. *)
Definition is_prime (n : Z) : bool :=
  (1 <? n) && forallb (fun d => negb (n mod d =? 0)) (seqZ 2 (n - 2)).

Definition primes : list Z := List.filter is_prime (seqZ 2 310).

(** The largest [r] below [2 ^ bits] with [r ^ 3 <= n], bit by bit. *)
Fixpoint cube_root_bits (bits : nat) (n r : Z) : Z :=
  match bits with
  | O => r
  | S bits' =>
      let r' := r + 2 ^ Z.of_nat bits' in
      cube_root_bits bits' n (if r' * r' * r' <=? n then r' else r)
  end.

Definition cube_root_fraction (p : Z) : Z :=
  Z.land (cube_root_bits 36 (p * 2 ^ 96) 0) mask32.

Definition square_root_fraction (p : Z) : Z :=
  Z.land (Z.sqrt (p * 2 ^ 64)) mask32.

Definition K : list Z :=
  Eval vm_compute in map cube_root_fraction primes.

(** The eight working words. *)
Record registers : Type := Regs {
  ra : Z; rb : Z; rc : Z; rd : Z; re : Z; rf : Z; rg : Z; rh : Z
}.

Definition H0 : registers :=
  Eval vm_compute in
    let h := fun i => square_root_fraction (nth i primes 0) in
    Regs (h 0%nat) (h 1%nat) (h 2%nat) (h 3%nat)
         (h 4%nat) (h 5%nat) (h 6%nat) (h 7%nat).

(** Message padding: a 1 bit, zeros up to 56 modulo 64 bytes, then the
    bit length on 8 bytes, big endian. *)
Definition be_bytes (count : nat) (x : Z) : list Z :=
  map (fun i => Z.land (Z.shiftr x (8 * Z.of_nat i)) 255)
      (rev (seq 0 count)).

Definition padding (len : Z) : list Z :=
  let zeros := (55 - len) mod 64 in
  128 :: repeat 0 (Z.to_nat zeros) ++ be_bytes 8 (8 * len).

Definition pad_message (m : list byte) : list Z :=
  map byte_to_Z m ++ padding (Z.of_nat (length m)).

(** Big-endian 32-bit words of a byte sequence. *)
Fixpoint words (bs : list Z) : list Z :=
  match bs with
  | b0 :: b1 :: b2 :: b3 :: rest =>
      (b0 * 16777216 + b1 * 65536 + b2 * 256 + b3) :: words rest
  | _ => []
  end.

(** The message schedule, most recent word first: [extend n w] adds
    [n] words to the 16 words of a block. *)
Fixpoint extend (n : nat) (w : list Z) : list Z :=
  match n with
  | O => w
  | S n' =>
      let x :=
        add32 (add32 (sigma1 (nth 1 w 0)) (nth 6 w 0))
              (add32 (sigma0 (nth 14 w 0)) (nth 15 w 0)) in
      extend n' (x :: w)
  end.

Definition schedule (block : list Z) : list Z :=
  rev (extend 48 (rev block)).

Definition round (r : registers) (kw : Z * Z) : registers :=
  let t1 :=
    add32 (add32 (add32 (rh r) (Sigma1 (re r)))
                 (add32 (Ch (re r) (rf r) (rg r)) (fst kw)))
          (snd kw) in
  let t2 := add32 (Sigma0 (ra r)) (Maj (ra r) (rb r) (rc r)) in
  Regs (add32 t1 t2) (ra r) (rb r) (rc r)
       (add32 (rd r) t1) (re r) (rf r) (rg r).

Definition compress (h : registers) (block : list Z) : registers :=
  let r := fold_left round (combine K (schedule block)) h in
  Regs (add32 (ra h) (ra r)) (add32 (rb h) (rb r))
       (add32 (rc h) (rc r)) (add32 (rd h) (rd r))
       (add32 (re h) (re r)) (add32 (rf h) (rf r))
       (add32 (rg h) (rg r)) (add32 (rh h) (rh r)).

(** All 16-word blocks of the padded message, in order. *)
Fixpoint process (fuel : nat) (h : registers) (ws : list Z) : registers :=
  match fuel with
  | O => h
  | S fuel' =>
      match ws with
      | [] => h
      | _ => process fuel' (compress h (firstn 16 ws)) (skipn 16 ws)
      end
  end.

Definition word_bytes (x : Z) : list byte := map byte_of_Z (be_bytes 4 x).

Definition digest_bytes (r : registers) : list byte :=
  word_bytes (ra r) ++ word_bytes (rb r) ++ word_bytes (rc r)
    ++ word_bytes (rd r) ++ word_bytes (re r) ++ word_bytes (rf r)
    ++ word_bytes (rg r) ++ word_bytes (rh r).

Definition sha256 (m : list byte) : list byte :=
  let ws := words (pad_message m) in
  digest_bytes (process (length ws) H0 ws).

(** Lower-case hexadecimal, to compare with published test vectors. *)
Definition hex_digit (n : Z) : ascii :=
  if n <? 10 then char_of_code (48 + n) else char_of_code (87 + n).

Fixpoint hex (bs : list byte) : string :=
  match bs with
  | [] => EmptyString
  | b :: rest =>
      String (hex_digit (byte_to_Z b / 16))
        (String (hex_digit (byte_to_Z b mod 16)) (hex rest))
  end.

End SHA256.

(** ** Time values and the [Date] functions of ECMA-262 (section 21.4.1)

    A time value is a number of milliseconds since 1970-01-01T00:00:00Z;
    [/] and [mod] on [Z] round towards minus infinity, as [floor] and
    the specification's [modulo] do. *)

Module JSDate.

Definition msPerSecond : Z := 1000.
Definition msPerMinute : Z := 60000.
Definition msPerHour : Z := 3600000.
Definition msPerDay : Z := 86400000.
Definition maxTime : Z := 8640000000000000.

Definition Day (t : Z) : Z := t / msPerDay.
Definition TimeWithinDay (t : Z) : Z := t mod msPerDay.

Definition DaysInYear (y : Z) : Z :=
  if negb (y mod 4 =? 0) then 365
  else if negb (y mod 100 =? 0) then 366
  else if negb (y mod 400 =? 0) then 365
  else 366.

Definition DayFromYear (y : Z) : Z :=
  365 * (y - 1970) + (y - 1969) / 4 - (y - 1901) / 100 + (y - 1601) / 400.

Definition TimeFromYear (y : Z) : Z := msPerDay * DayFromYear y.

(** ECMA-262: "the largest integral Number [y] such that
    [TimeFromYear y <= t]".  A year has 146097/400 days on average, which
    places the year within one of the estimate; the lemma
    [YearFromTime_largest] shows that the result is the year specified. *)
Definition YearFromTime (t : Z) : Z :=
  let d := Day t in
  let y := 1970 + 400 * d / 146097 in
  if DayFromYear (y + 1) <=? d then y + 1
  else if DayFromYear y <=? d then y
  else y - 1.

Definition InLeapYear (t : Z) : Z :=
  if DaysInYear (YearFromTime t) =? 365 then 0 else 1.

Definition DayWithinYear (t : Z) : Z := Day t - DayFromYear (YearFromTime t).

Definition MonthFromTime (t : Z) : Z :=
  let d := DayWithinYear t in
  let l := InLeapYear t in
  if d <? 31 then 0
  else if d <? 59 + l then 1
  else if d <? 90 + l then 2
  else if d <? 120 + l then 3
  else if d <? 151 + l then 4
  else if d <? 181 + l then 5
  else if d <? 212 + l then 6
  else if d <? 243 + l then 7
  else if d <? 273 + l then 8
  else if d <? 304 + l then 9
  else if d <? 334 + l then 10
  else 11.

Definition DateFromTime (t : Z) : Z :=
  let d := DayWithinYear t in
  let l := InLeapYear t in
  match MonthFromTime t with
  | 0 => d + 1
  | 1 => d - 30
  | 2 => d - 58 - l
  | 3 => d - 89 - l
  | 4 => d - 119 - l
  | 5 => d - 150 - l
  | 6 => d - 180 - l
  | 7 => d - 211 - l
  | 8 => d - 242 - l
  | 9 => d - 272 - l
  | 10 => d - 303 - l
  | _ => d - 333 - l
  end.

Definition HourFromTime (t : Z) : Z := (t / msPerHour) mod 24.
Definition MinFromTime (t : Z) : Z := (t / msPerMinute) mod 60.
Definition SecFromTime (t : Z) : Z := (t / msPerSecond) mod 60.
Definition msFromTime (t : Z) : Z := t mod msPerSecond.

Definition MakeTime (hour min sec ms : Z) : Z :=
  hour * msPerHour + min * msPerMinute + sec * msPerSecond + ms.

(** The day within the year on which month [mn] starts; [l] is 1 in a
    leap year. *)
Definition month_start (mn l : Z) : Z :=
  match mn with
  | 0 => 0
  | 1 => 31
  | 2 => 59 + l
  | 3 => 90 + l
  | 4 => 120 + l
  | 5 => 151 + l
  | 6 => 181 + l
  | 7 => 212 + l
  | 8 => 243 + l
  | 9 => 273 + l
  | 10 => 304 + l
  | _ => 334 + l
  end.

(** ECMA-262 asks for the day of a time value in year [ym], month [mn],
    on the first of the month, plus [date - 1]; the lemma
    [MakeDay_first_of_month] shows that this is what is computed. *)
Definition MakeDay (year month date : Z) : Z :=
  let ym := year + month / 12 in
  let mn := month mod 12 in
  let l := if DaysInYear ym =? 365 then 0 else 1 in
  DayFromYear ym + month_start mn l + date - 1.

Definition MakeDate (day time : Z) : Z := day * msPerDay + time.

(** [TimeClip]: [NaN] outside the range of time values. *)
Definition TimeClip (time : Z) : number :=
  if maxTime <? Z.abs time then NaN else Num time.

(** [Date.UTC] with six arguments (milliseconds absent, so 0); a year
    from 0 to 99 stands for 1900 to 1999. *)
Definition UTC (year month date hours minutes seconds : Z) : number :=
  let yr := if (0 <=? year) && (year <=? 99) then 1900 + year else year in
  TimeClip (MakeDate (MakeDay yr month date)
                     (MakeTime hours minutes seconds 0)).
End JSDate.

(** The getters of a [Date] whose time value is [t]. *)
Definition getUTCFullYear (t : Z) : Z := JSDate.YearFromTime t.
Definition getUTCMonth (t : Z) : Z := JSDate.MonthFromTime t.
Definition getUTCDate (t : Z) : Z := JSDate.DateFromTime t.
Definition getUTCHours (t : Z) : Z := JSDate.HourFromTime t.
Definition getUTCMinutes (t : Z) : Z := JSDate.MinFromTime t.
Definition getUTCSeconds (t : Z) : Z := JSDate.SecFromTime t.

(** The time values a [Date] can hold. *)
Definition valid_time (t : Z) : Prop :=
  - JSDate.maxTime <= t <= JSDate.maxTime.

(** ** class BlockChainBlock *)

(** The public [index] and the private fields [#data], [#previousBlock]
    and [#timestamp]. *)
#[warnings="-register-all"]
Inductive BlockChainBlock : Type :=
| Block (index : Z) (priv_data : list byte)
        (priv_previousBlock : option BlockChainBlock)
        (priv_timestamp : number).

Definition index (b : BlockChainBlock) : Z :=
  match b with Block i _ _ _ => i end.

Definition priv_data (b : BlockChainBlock) : list byte :=
  match b with Block _ d _ _ => d end.

Definition priv_previousBlock (b : BlockChainBlock) : option BlockChainBlock :=
  match b with Block _ _ p _ => p end.

Definition priv_timestamp (b : BlockChainBlock) : number :=
  match b with Block _ _ _ t => t end.

(** The constructor; [now] is the time value of the [Date] argument,
    which defaults to the clock reading [new Date()]. *)
Definition new_BlockChainBlock (index : Z) (data : list byte)
    (previousBlock : option BlockChainBlock) (now : Z) : BlockChainBlock :=
  let utcNow :=
    JSDate.UTC (getUTCFullYear now) (getUTCMonth now) (getUTCDate now)
               (getUTCHours now) (getUTCMinutes now) (getUTCSeconds now) in
  Block index data previousBlock utcNow.

(** [get data()] *)
Definition data (b : BlockChainBlock) : string :=
  Base64.encode (priv_data b).

(** [get timestamp()] *)
Definition timestamp (b : BlockChainBlock) : number := priv_timestamp b.

(** [a || b] on strings: the empty string is the only falsy one. *)
Definition or_else (a b : string) : string :=
  match a with
  | EmptyString => b
  | _ => a
  end.

Definition LF : string := String (ascii_of_nat 10) EmptyString.

(** [sha256.update(s).digest().toString('base64')]; [update] encodes a
    string argument as UTF-8. *)
Definition sha256_base64 (s : string) : string :=
  Base64.encode (SHA256.sha256 (utf8_encode s)).

(** [get hash()]; it reads [this.previousHash], which reads the hash of
    the previous block in turn, so the three getters it calls are written
    out here; [hash_unfold] states it with the getters. *)
Fixpoint hash (b : BlockChainBlock) : string :=
  match b with
  | Block i d prev ts =>
      let previousHash :=
        match prev with
        | Some p => or_else (hash p) EmptyString
        | None => EmptyString
        end in
      sha256_base64
        (Z_to_string i +:+ LF +:+ previousHash +:+ LF
           +:+ number_to_string ts +:+ LF +:+ Base64.encode d)
  end.

(** [get previousHash()] *)
Definition previousHash (b : BlockChainBlock) : string :=
  match priv_previousBlock b with
  | Some p => or_else (hash p) EmptyString
  | None => EmptyString
  end.

(** ** The heap: arrays and closure variables *)

(** References into the heap. *)
Abbreviation loc := positive.

Record heap : Type := Heap {
  arrays : gmap positive (list BlockChainBlock);
  cells : gmap positive Z
}.

Definition empty_heap : heap := Heap ∅ ∅.

(** A computation reads and updates the heap; [None] is a computation
    that does not finish normally (a reference that is not allocated,
    or a loop that was given too little fuel). *)
Definition M (A : Type) : Type := heap -> option (A * heap).

Definition ret {A : Type} (x : A) : M A := fun h => Some (x, h).

Definition bind {A B : Type} (m : M A) (k : A -> M B) : M B :=
  fun h =>
    match m h with
    | Some (x, h') => k x h'
    | None => None
    end.

Notation "x <- m ;; k" := (bind m (fun x => k))
  (at level 100, m at next level, right associativity).

Definition alloc_array (l : list BlockChainBlock) : M loc :=
  fun h =>
    let r := fresh (dom (arrays h)) in
    Some (r, Heap (<[r := l]> (arrays h)) (cells h)).

Definition read_array (r : loc) : M (list BlockChainBlock) :=
  fun h =>
    match arrays h !! r with
    | Some l => Some (l, h)
    | None => None
    end.

(** [array.push(b)] *)
Definition push (r : loc) (b : BlockChainBlock) : M unit :=
  fun h =>
    match arrays h !! r with
    | Some l => Some (tt, Heap (<[r := l ++ [b]]> (arrays h)) (cells h))
    | None => None
    end.

Definition alloc_cell (v : Z) : M loc :=
  fun h =>
    let r := fresh (dom (cells h)) in
    Some (r, Heap (arrays h) (<[r := v]> (cells h))).

Definition read_cell (r : loc) : M Z :=
  fun h =>
    match cells h !! r with
    | Some v => Some (v, h)
    | None => None
    end.

Definition write_cell (r : loc) (v : Z) : M unit :=
  fun h =>
    match cells h !! r with
    | Some _ => Some (tt, Heap (arrays h) (<[r := v]> (cells h)))
    | None => None
    end.

(** [array[i]]: [undefined] outside the array. *)
Definition array_get (l : list BlockChainBlock) (i : Z)
  : option BlockChainBlock :=
  if i <? 0 then None else l !! Z.to_nat i.

(** ** class ArrayBlockChain *)

Record ArrayBlockChain : Type := {
  blocks : loc;
  genesisBlock : BlockChainBlock
}.

(** The constructor, after the field initialiser [#blocks = []]. *)
Definition new_ArrayBlockChain (now : Z) : M ArrayBlockChain :=
  r <- alloc_array [] ;;
  let newGenesisBlock := new_BlockChainBlock (-1) [] None now in
  ret {| blocks := r; genesisBlock := newGenesisBlock |}.

(** [get #previousBlock()] *)
Definition get_previousBlock (c : ArrayBlockChain) : M BlockChainBlock :=
  l <- read_array (blocks c) ;;
  ret (default (genesisBlock c) (array_get l (Z.of_nat (length l) - 1))).

(** [addBlock(data)]; [now] is the clock reading when the block is
    constructed. *)
Definition addBlock (c : ArrayBlockChain) (data : string) (now : Z)
  : M BlockChainBlock :=
  previousBlock <- get_previousBlock c ;;
  let newGenesisBlock :=
    new_BlockChainBlock (index previousBlock + 1) (Base64.decode data)
                        (Some previousBlock) now in
  _ <- push (blocks c) newGenesisBlock ;;
  ret newGenesisBlock.

(** The object [[Symbol.asyncIterator]()] returns: its [next] closes over
    [copyOfBlocks] and [cursorIndex]. *)
Record iterator : Type := {
  copyOfBlocks : loc;
  cursorIndex : loc
}.

Record IteratorResult : Type := {
  done : bool;
  value : option BlockChainBlock
}.

Definition asyncIterator (c : ArrayBlockChain) : M iterator :=
  l <- read_array (blocks c) ;;
  copy <- alloc_array l ;;
  cur <- alloc_cell 0 ;;
  ret {| copyOfBlocks := copy; cursorIndex := cur |}.

Definition next (it : iterator) : M IteratorResult :=
  currentIndex <- read_cell (cursorIndex it) ;;
  _ <- write_cell (cursorIndex it) (currentIndex + 1) ;;
  l <- read_array (copyOfBlocks it) ;;
  ret {| done := Z.of_nat (length l) <=? currentIndex;
         value := array_get l currentIndex |}.



(** ** Clients

    A client holds one chain and the iterators it has opened on it, and
    calls them in any order: [addBlock(data)] while the clock reads
    [now], [[Symbol.asyncIterator]()], or [next()] on the [k]-th iterator
    it has opened, counting from 0.  The trace records what each call
    returned; a client that names an iterator it has not opened gets
    [NoSuchIterator] and nothing happens. *)
Inductive action : Type :=
| CallAddBlock (data : string) (now : Z)
| CallAsyncIterator
| CallNext (k : nat).

Inductive event : Type :=
| Added (b : BlockChainBlock)
| Opened
| Stepped (k : nat) (r : IteratorResult)
| NoSuchIterator.

Definition step (c : ArrayBlockChain) (its : list iterator) (a : action)
  : M (event * list iterator) :=
  match a with
  | CallAddBlock data now =>
      b <- addBlock c data now ;;
      ret (Added b, its)
  | CallAsyncIterator =>
      it <- asyncIterator c ;;
      ret (Opened, its ++ [it])
  | CallNext k =>
      match its !! k with
      | Some it =>
          r <- next it ;;
          ret (Stepped k r, its)
      | None => ret (NoSuchIterator, its)
      end
  end.

Fixpoint run (c : ArrayBlockChain) (its : list iterator) (acts : list action)
  : M (list event * list iterator) :=
  match acts with
  | [] => ret ([], its)
  | a :: acts' =>
      r <- step c its a ;;
      rs <- run c (snd r) acts' ;;
      ret (fst r :: fst rs, snd rs)
  end.

(** [createNewBlockChain()] followed by the client's calls. *)
Definition session (now0 : Z) (acts : list action)
  : M (ArrayBlockChain * list event) :=
  c <- new_ArrayBlockChain now0 ;;
  rs <- run c [] acts ;;
  ret (c, fst rs).

(** The blocks that [#blocks] holds. *)
Definition stored (c : ArrayBlockChain) (h : heap)
  : option (list BlockChainBlock) :=
  arrays h !! blocks c.

(** ** What a client observes, and the value-level reading of a run

    [added] and [steps_of] read a trace.  The definitions after them
    describe a run without a heap: every iterator owns its snapshot and
    its position.  [run_abstract] below proves that the heap-level [run]
    computes exactly that. *)

Fixpoint added (evs : list event) : list BlockChainBlock :=
  match evs with
  | [] => []
  | Added b :: evs' => b :: added evs'
  | _ :: evs' => added evs'
  end.

Fixpoint steps_of (k : nat) (evs : list event) : list IteratorResult :=
  match evs with
  | [] => []
  | Stepped k' r :: evs' =>
      if Nat.eqb k k' then r :: steps_of k evs' else steps_of k evs'
  | _ :: evs' => steps_of k evs'
  end.

Fixpoint count_adds (acts : list action) : nat :=
  match acts with
  | [] => 0
  | CallAddBlock _ _ :: acts' => S (count_adds acts')
  | _ :: acts' => count_adds acts'
  end.

Fixpoint count_opens (acts : list action) : nat :=
  match acts with
  | [] => 0
  | CallAsyncIterator :: acts' => S (count_opens acts')
  | _ :: acts' => count_opens acts'
  end.

Fixpoint count_next (k : nat) (acts : list action) : nat :=
  match acts with
  | [] => 0
  | CallNext k' :: acts' =>
      if Nat.eqb k k' then S (count_next k acts') else count_next k acts'
  | _ :: acts' => count_next k acts'
  end.

(** What [next] returns at position [i] of an array [snap]. *)
Definition result_at (snap : list BlockChainBlock) (i : Z) : IteratorResult :=
  {| done := Z.of_nat (length snap) <=? i; value := array_get snap i |}.

Record view : Type := {
  snapshot : list BlockChainBlock;
  position : Z
}.

Record abstract_state : Type := {
  a_blocks : list BlockChainBlock;
  a_views : list view
}.

Definition tail_block (gen : BlockChainBlock) (bs : list BlockChainBlock)
  : BlockChainBlock :=
  default gen (array_get bs (Z.of_nat (length bs) - 1)).

Definition appended (gen : BlockChainBlock) (bs : list BlockChainBlock)
    (data : string) (now : Z) : BlockChainBlock :=
  new_BlockChainBlock (index (tail_block gen bs) + 1) (Base64.decode data)
                      (Some (tail_block gen bs)) now.

Definition abstract_step (gen : BlockChainBlock) (s : abstract_state)
    (a : action) : event * abstract_state :=
  match a with
  | CallAddBlock data now =>
      let b := appended gen (a_blocks s) data now in
      (Added b, {| a_blocks := a_blocks s ++ [b]; a_views := a_views s |})
  | CallAsyncIterator =>
      (Opened,
       {| a_blocks := a_blocks s;
          a_views := a_views s
                       ++ [{| snapshot := a_blocks s; position := 0 |}] |})
  | CallNext k =>
      match a_views s !! k with
      | Some v =>
          (Stepped k (result_at (snapshot v) (position v)),
           {| a_blocks := a_blocks s;
              a_views := <[k := {| snapshot := snapshot v;
                                   position := position v + 1 |}]>
                           (a_views s) |})
      | None => (NoSuchIterator, s)
      end
  end.

Fixpoint abstract_run (gen : BlockChainBlock) (s : abstract_state)
    (acts : list action) : list event * abstract_state :=
  match acts with
  | [] => ([], s)
  | a :: acts' =>
      let r := abstract_step gen s a in
      let rs := abstract_run gen (snd r) acts' in
      (fst r :: fst rs, snd rs)
  end.

(** The genesis anchor of a chain created when the clock reads [now0]. *)
Definition genesis (now0 : Z) : BlockChainBlock :=
  new_BlockChainBlock (-1) [] None now0.

Definition initial : abstract_state := {| a_blocks := []; a_views := [] |}.

(** The heap [h] holds the abstract state [s] for the chain [c] and the
    iterators [its]: no snapshot is the chain's own array, and no two
    iterators share a cursor. *)
Definition represents (c : ArrayBlockChain) (its : list iterator)
    (h : heap) (s : abstract_state) : Prop :=
  arrays h !! blocks c = Some (a_blocks s)
  /\ Forall2 (fun it v =>
                copyOfBlocks it <> blocks c
                /\ arrays h !! copyOfBlocks it = Some (snapshot v)
                /\ cells h !! cursorIndex it = Some (position v))
             its (a_views s)
  /\ NoDup (map cursorIndex its).

(** Every block of the list sits at its index and points at the block
    before it, the first one at [gen]. *)
Definition linked (gen : BlockChainBlock) (bs : list BlockChainBlock)
  : Prop :=
  forall (i : nat) (b : BlockChainBlock),
    bs !! i = Some b ->
    index b = Z.of_nat i
    /\ priv_previousBlock b
       = Some (match i with
               | O => gen
               | S j => default gen (bs !! j)
               end).

(** A timestamp as the constructor is meant to leave it. *)
Definition whole_seconds (b : BlockChainBlock) : Prop :=
  exists ms : Z, timestamp b = Num ms /\ 0 <= ms /\ ms mod 1000 = 0.

Definition clock_ok (now : Z) : Prop := 0 <= now <= JSDate.maxTime.

Definition action_clock_ok (a : action) : Prop :=
  match a with
  | CallAddBlock _ now => clock_ok now
  | _ => True
  end.

(** The calls of the demonstration driver ([main] in [index.ts]) with
    sample clock readings: three [addBlock] calls, each followed by one
    complete [for await] loop over the chain. *)
Definition driver : list action :=
  [ CallAddBlock "dGVzdDE=" 1700000000123;
    CallAsyncIterator; CallNext 0; CallNext 0;
    CallAddBlock "dGVzdDI=" 1700000001456;
    CallAsyncIterator; CallNext 1; CallNext 1; CallNext 1;
    CallAddBlock "dGVzdDM=" 1700000002789;
    CallAsyncIterator; CallNext 2; CallNext 2; CallNext 2; CallNext 2 ].

(** ** The hash as the specification words it

    "SHA-256 digest of the UTF-8-encoded string
    [{index}\n{previousHash}\n{timestamp}\n{payloadBase64}], rendered as
    Base64", where [payloadBase64] is the payload re-encoded as Base64. *)

Fixpoint spec_hash (b : BlockChainBlock) : string :=
  match b with
  | Block index payload previousBlockRef timestamp =>
      let previousHash :=
        match previousBlockRef with
        | Some predecessor => spec_hash predecessor
        | None => EmptyString
        end in
      let payloadBase64 := Base64.encode payload in
      Base64.encode
        (SHA256.sha256
           (utf8_encode
              (Z_to_string index +:+ LF +:+ previousHash +:+ LF
                 +:+ number_to_string timestamp +:+ LF +:+ payloadBase64)))
  end.

(** Strings of code units below 128. *)
Fixpoint ascii_only (s : string) : Prop :=
  match s with
  | EmptyString => True
  | String c s' => char_code c < 128 /\ ascii_only s'
  end.

(** A string is canonical Base64 when it is the Base64 text of some
    byte sequence. *)
Definition canonical (s : string) : Prop :=
  exists bs : list byte, s = Base64.encode bs.

(** ** The text a block's hash is taken of, and a block's predecessors *)

(** The template literal of [get hash()]. *)
Definition hash_input (b : BlockChainBlock) : string :=
  Z_to_string (index b) +:+ LF +:+ previousHash b +:+ LF
    +:+ number_to_string (timestamp b) +:+ LF +:+ data b.

(** A block, the block its [#previousBlock] refers to, and so on. *)
Fixpoint ancestors (b : BlockChainBlock) : list BlockChainBlock :=
  match b with
  | Block _ _ prev _ =>
      b :: match prev with
           | Some p => ancestors p
           | None => []
           end
  end.

(** Two blocks whose hash inputs differ and whose SHA-256 digests agree:
    a collision of SHA-256 on the two texts. *)
Definition collide (p1 p2 : BlockChainBlock) : Prop :=
  utf8_encode (hash_input p1) <> utf8_encode (hash_input p2)
  /\ SHA256.sha256 (utf8_encode (hash_input p1))
     = SHA256.sha256 (utf8_encode (hash_input p2)).

(** Strings without a line feed. *)
Fixpoint no_LF (s : string) : Prop :=
  match s with
  | EmptyString => True
  | String c s' => char_code c <> 10 /\ no_LF s'
  end.

(** ** createNewBlockChain, and a client of two chains *)

(** [createNewBlockChain()]: [new ArrayBlockChain()] behind a promise;
    [now] is the clock reading when the genesis anchor is constructed. *)
Definition createNewBlockChain (now : Z) : M ArrayBlockChain :=
  new_ArrayBlockChain now.

(** Calls on two chains in any order; [false] names the first chain and
    [true] the second.  The two traces are kept apart. *)
Fixpoint run_two (c1 c2 : ArrayBlockChain) (its1 its2 : list iterator)
    (calls : list (bool * action)) : M (list event * list event) :=
  match calls with
  | [] => ret ([], [])
  | (false, a) :: calls' =>
      r <- step c1 its1 a ;;
      rs <- run_two c1 c2 (snd r) its2 calls' ;;
      ret (fst r :: fst rs, snd rs)
  | (true, a) :: calls' =>
      r <- step c2 its2 a ;;
      rs <- run_two c1 c2 its1 (snd r) calls' ;;
      ret (fst rs, fst r :: snd rs)
  end.

Definition two_sessions (now1 now2 : Z) (calls : list (bool * action))
  : M (ArrayBlockChain * ArrayBlockChain * list event * list event) :=
  c1 <- createNewBlockChain now1 ;;
  c2 <- createNewBlockChain now2 ;;
  rs <- run_two c1 c2 [] [] calls ;;
  ret (c1, c2, fst rs, snd rs).

(** The calls made on one of the two chains. *)
Fixpoint calls_on (which : bool) (calls : list (bool * action))
  : list action :=
  match calls with
  | [] => []
  | (w, a) :: calls' =>
      if Bool.eqb w which then a :: calls_on which calls'
      else calls_on which calls'
  end.

(** Two chains and their iterators share no array and no cursor. *)
Definition apart (c : ArrayBlockChain) (its : list iterator)
    (c' : ArrayBlockChain) (its' : list iterator) : Prop :=
  blocks c <> blocks c'
  /\ Forall (fun it => copyOfBlocks it <> blocks c') its
  /\ Forall (fun it' => copyOfBlocks it' <> blocks c) its'
  /\ (forall it it',
        In it its -> In it' its' -> cursorIndex it <> cursorIndex it').

(** ** The demonstration program ([main] of [index.ts]) *)

(** [buf.toString()], that is UTF-8 decoding, of the byte sequences whose
    text consists of code units below 256: ASCII bytes, and the two-byte
    sequences led by 0xC2 or 0xC3.  The text of any other byte sequence
    holds code units that the strings of this file cannot hold; [None]
    stands for it. *)
Fixpoint utf8_decode (bs : list byte) : option string :=
  match bs with
  | [] => Some EmptyString
  | b :: rest =>
      let n := byte_to_Z b in
      if n <? 128 then
        option_map (String (char_of_code n)) (utf8_decode rest)
      else if (n =? 194) || (n =? 195) then
        match rest with
        | b' :: rest' =>
            let m := byte_to_Z b' in
            if (128 <=? m) && (m <? 192) then
              option_map (String (char_of_code ((n - 192) * 64 + (m - 128))))
                         (utf8_decode rest')
            else None
        | [] => None
        end
      else None
  end.

(** The arguments of one [console.log] call. *)
Inductive jsvalue : Type :=
| VString (s : string)
| VNumber (z : Z).

(** [console.log('Block', block.index,
    Buffer.from(block.data, 'base64').toString(),
    block.previousHash, block.hash)], given the decoded text. *)
Definition block_line (p : BlockChainBlock * string) : list jsvalue :=
  [ VString "Block"; VNumber (index (fst p)); VString (snd p);
    VString (previousHash (fst p)); VString (hash (fst p)) ].

(** The inner loop of [main]: [for await (const block of blockChain)
    console.log(...)], from the iterator on; the result lists the
    [console.log] calls.  Reading [block.index] of [undefined] throws. *)
Fixpoint print_blocks (fuel : nat) (it : iterator)
  : M (list (list jsvalue)) :=
  match fuel with
  | O => fun _ => None
  | S fuel' =>
      r <- next it ;;
      if done r then ret []
      else
        match value r with
        | Some block =>
            match utf8_decode (Base64.decode (data block)) with
            | Some text =>
                rest <- print_blocks fuel' it ;;
                ret (block_line (block, text) :: rest)
            | None => fun _ => None
            end
        | None => fun _ => None
        end
  end.

(** The outer loop of [main] over [data]: [console.log()], [addBlock] of
    the Base64 text of the UTF-8 bytes of [d], then the inner loop.
    [clock k] is the [k]-th reading of the clock since [main] began. *)
Fixpoint main_loop (fuel : nat) (blockChain : ArrayBlockChain)
    (clock : nat -> Z) (k : nat) (data : list string)
  : M (list (list jsvalue)) :=
  match data with
  | [] => ret []
  | d :: data' =>
      _ <- addBlock blockChain (Base64.encode (utf8_encode d)) (clock k) ;;
      it <- asyncIterator blockChain ;;
      lines <- print_blocks fuel it ;;
      rest <- main_loop fuel blockChain clock (S k) data' ;;
      ret (([] :: lines) ++ rest)
  end.

Definition main_with (fuel : nat) (clock : nat -> Z) (data : list string)
  : M (list (list jsvalue)) :=
  blockChain <- createNewBlockChain (clock 0%nat) ;;
  main_loop fuel blockChain clock 1 data.

Definition main (fuel : nat) (clock : nat -> Z) : M (list (list jsvalue)) :=
  main_with fuel clock ["test1"; "test2"; "test3"].

(** The [addBlock] calls [main] makes for [data], from clock reading [k]
    on. *)
Fixpoint main_calls (clock : nat -> Z) (k : nat) (data : list string)
  : list action :=
  match data with
  | [] => []
  | d :: data' =>
      CallAddBlock (Base64.encode (utf8_encode d)) (clock k)
        :: main_calls clock (S k) data'
  end.

(** What [main] logs while it goes through [rest], when [shown] is what
    the chain held before. *)
Fixpoint rounds (shown rest : list (BlockChainBlock * string))
  : list (list jsvalue) :=
  match rest with
  | [] => []
  | p :: rest' =>
      ([] :: map block_line (shown ++ [p])) ++ rounds (shown ++ [p]) rest'
  end.

(** Sample clock readings for [main]: the genesis anchor and three
    blocks. *)
Definition sample_clock (k : nat) : Z :=
  nth k [1700000000000; 1700000000123; 1700000001456; 1700000002789] 0.

(** The clock readings of the appends of a client, in call order. *)
Fixpoint readings (acts : list action) : list Z :=
  match acts with
  | [] => []
  | CallAddBlock _ now :: acts' => now :: readings acts'
  | _ :: acts' => readings acts'
  end.

(** The clock readings of a client's appends are time values a [Date]
    can hold. *)
Definition action_valid (a : action) : Prop :=
  match a with
  | CallAddBlock _ now => valid_time now
  | _ => True
  end.

(** The timestamp of a block constructed when the clock read [now]: a
    whole number of milliseconds, a multiple of 1000, and not negative
    when [now] is not. *)
Definition stamped (now : Z) (b : BlockChainBlock) : Prop :=
  exists ms : Z,
    timestamp b = Num ms /\ ms mod 1000 = 0 /\ (0 <= now -> 0 <= ms).

(** The number of appends a client makes before it opens its [k]-th
    iterator (counting from 0); all its appends if it never does. *)
Fixpoint blocks_at_opening (k : nat) (acts : list action) : nat :=
  match acts with
  | [] => 0
  | CallAddBlock _ _ :: acts' => S (blocks_at_opening k acts')
  | CallAsyncIterator :: acts' =>
      match k with
      | O => 0
      | S k' => blocks_at_opening k' acts'
      end
  | CallNext _ :: acts' => blocks_at_opening k acts'
  end.

(** * Properties *)

(** ** Bytes and Base64 *)

Lemma byte_to_Z_range (b : byte) : 0 <= byte_to_Z b < 256.
Proof.
  unfold byte_to_Z. pose proof (Byte.to_N_bounded b). lia.
Qed.

Lemma byte_of_to_Z (b : byte) : byte_of_Z (byte_to_Z b) = b.
Proof.
  unfold byte_of_Z. rewrite Z.mod_small by apply byte_to_Z_range.
  unfold byte_to_Z. rewrite N2Z.id, Byte.of_to_N. reflexivity.
Qed.

(** A check that holds on [0 .. n-1] by evaluation holds for every
    integer of that range. *)
Lemma Z_range_forallb (P : Z -> bool) (n : nat) :
  forallb P (map Z.of_nat (seq 0 n)) = true ->
  forall z, 0 <= z < Z.of_nat n -> P z = true.
Proof.
  intros Hall z Hz. rewrite forallb_forall in Hall. apply Hall.
  apply in_map_iff. exists (Z.to_nat z). split; [lia|].
  apply in_seq. lia.
Qed.

Lemma list_ind3 {A : Type} (P : list A -> Prop) :
  P [] ->
  (forall a, P [a]) ->
  (forall a b, P [a; b]) ->
  (forall a b c l, P l -> P (a :: b :: c :: l)) ->
  forall l, P l.
Proof.
  intros H0 H1 H2 H3 l.
  assert (forall n l, (length l <= n)%nat -> P l) as Hn.
  { clear l. induction n as [|n IH]; intros l Hl.
    - destruct l; [exact H0 | simpl in Hl; lia].
    - destruct l as [|a [|b [|c l]]]; auto.
      apply H3, IH. simpl in Hl. lia. }
  apply (Hn (length l)). lia.
Qed.

Module Base64Facts.
Import Base64.

Lemma unbase64_encode_sextet (n : Z) :
  0 <= n < 64 -> unbase64 (encode_sextet n) = Some n.
Proof.
  intros Hn.
  pose proof (Z_range_forallb
    (fun z => match unbase64 (encode_sextet z) with
              | Some m => m =? z
              | None => false
              end) 64 ltac:(vm_compute; reflexivity) n Hn) as H.
  cbv beta in H. destruct (unbase64 (encode_sextet n)); [|discriminate].
  f_equal. lia.
Qed.

Lemma legal_sextets_cons (n : Z) (s : string) :
  0 <= n < 64 ->
  legal_sextets (String (encode_sextet n) s) = n :: legal_sextets s.
Proof.
  intros Hn. simpl. rewrite unbase64_encode_sextet by exact Hn. reflexivity.
Qed.

Lemma legal_sextets_pad (s : string) : legal_sextets (String pad s) = [].
Proof. reflexivity. Qed.

Lemma cons_byte (z : Z) (b : byte) (l l' : list byte) :
  z = byte_to_Z b -> l = l' -> byte_of_Z z :: l = b :: l'.
Proof. intros -> ->. rewrite byte_of_to_Z. reflexivity. Qed.

Ltac sextet_arith := Z.to_euclidean_division_equations; lia.

(** Decoding what [toString('base64')] produced gives the bytes back. *)
Lemma decode_encode (bs : list byte) : decode (encode bs) = bs.
Proof.
  unfold decode. induction bs as [|b0|b0 b1|b0 b1 b2 rest IH] using list_ind3.
  - reflexivity.
  - pose proof (byte_to_Z_range b0).
    cbn [encode].
    rewrite !legal_sextets_cons, legal_sextets_pad by sextet_arith.
    cbn [decode_sextets].
    apply cons_byte; [sextet_arith | reflexivity].
  - pose proof (byte_to_Z_range b0). pose proof (byte_to_Z_range b1).
    cbn [encode].
    rewrite !legal_sextets_cons, legal_sextets_pad by sextet_arith.
    cbn [decode_sextets].
    repeat (apply cons_byte; [sextet_arith|]). reflexivity.
  - pose proof (byte_to_Z_range b0). pose proof (byte_to_Z_range b1).
    pose proof (byte_to_Z_range b2).
    cbn [encode].
    rewrite !legal_sextets_cons by sextet_arith.
    cbn [decode_sextets].
    repeat (apply cons_byte; [sextet_arith|]). exact IH.
Qed.

Lemma encode_length (bs : list byte) :
  String.length (encode bs) = (4 * ((length bs + 2) / 3))%nat.
Proof.
  induction bs as [|b0|b0 b1|b0 b1 b2 rest IH] using list_ind3;
    try reflexivity.
  cbn [encode String.length length]. rewrite IH.
  replace (S (S (S (length rest))) + 2)%nat
    with (1 * 3 + (length rest + 2))%nat by lia.
  rewrite Nat.div_add_l by lia. lia.
Qed.

End Base64Facts.

(** ** SHA-256 *)

Example sha256_constants :
  length SHA256.K = 64%nat
  /\ nth 0 SHA256.K 0 = 0x428a2f98
  /\ nth 63 SHA256.K 0 = 0xc67178f2
  /\ SHA256.ra SHA256.H0 = 0x6a09e667
  /\ SHA256.rh SHA256.H0 = 0x5be0cd19.
Proof. vm_compute. repeat split. Qed.

Example sha256_empty :
  SHA256.hex (SHA256.sha256 [])
  = "e3b0c44298fc1c149afbf4c8996fb92427ae41e4649b934ca495991b7852b855".
Proof. vm_compute. reflexivity. Qed.

Example sha256_abc :
  SHA256.hex (SHA256.sha256 (utf8_encode "abc"))
  = "ba7816bf8f01cfea414140de5dae2223b00361a396177a9cb410ff61f20015ad".
Proof. vm_compute. reflexivity. Qed.

Example sha256_two_blocks :
  SHA256.hex (SHA256.sha256 (utf8_encode
    "abcdbcdecdefdefgefghfghighijhijkijkljklmklmnlmnomnopnopq"))
  = "248d6a61d20638b8e5c026930c3e6039a33ce45964ff2167f6ecedd419db06c1".
Proof. vm_compute. reflexivity. Qed.

Lemma sha256_length (m : list byte) : length (SHA256.sha256 m) = 32%nat.
Proof.
  unfold SHA256.sha256, SHA256.digest_bytes, SHA256.word_bytes,
    SHA256.be_bytes.
  rewrite !length_app, !length_map, !length_rev, !length_seq. reflexivity.
Qed.

Lemma sha256_base64_length (s : string) :
  String.length (sha256_base64 s) = 44%nat.
Proof.
  unfold sha256_base64.
  rewrite Base64Facts.encode_length, sha256_length. reflexivity.
Qed.

(** ** Dates *)

Module JSDateFacts.
Import JSDate.

Lemma DayFromYear_succ y : DayFromYear (y + 1) = DayFromYear y + DaysInYear y.
Proof.
  unfold DayFromYear, DaysInYear.
  repeat match goal with |- context [ (?a =? ?b) ] => destruct (Z.eqb_spec a b) end;
  simpl; Z.to_euclidean_division_equations; lia.
Qed.

Lemma DaysInYear_bounds y : 365 <= DaysInYear y <= 366.
Proof. unfold DaysInYear. repeat case_match; lia. Qed.

Lemma YearFromTime_spec t :
  DayFromYear (YearFromTime t) <= Day t < DayFromYear (YearFromTime t + 1).
Proof.
  unfold YearFromTime. set (d := Day t). clearbody d.
  set (y := 1970 + 400 * d / 146097).
  destruct (Z.leb_spec (DayFromYear (y + 1)) d) as [H1|H1].
  - split; [lia|].
    assert (d < DayFromYear (y + 2)); [|by replace (y + 1 + 1) with (y + 2) by lia].
    subst y. unfold DayFromYear in *. Z.to_euclidean_division_equations; lia.
  - destruct (Z.leb_spec (DayFromYear y) d) as [H2|H2]; [lia|].
    replace (y - 1 + 1) with y by lia. split; [|lia].
    subst y. unfold DayFromYear in *. Z.to_euclidean_division_equations; lia.
Qed.

Lemma DayFromYear_mono y1 y2 : y1 <= y2 -> DayFromYear y1 <= DayFromYear y2.
Proof.
  intros H. unfold DayFromYear. Z.to_euclidean_division_equations; lia.
Qed.

(** [YearFromTime t] is the largest year that starts at or before [t]. *)
Lemma YearFromTime_largest t y :
  TimeFromYear y <= t <-> y <= YearFromTime t.
Proof.
  pose proof (YearFromTime_spec t) as [Hlo Hhi].
  unfold TimeFromYear, Day, msPerDay in *. split; intros H.
  - destruct (Z.le_gt_cases y (YearFromTime t)) as [|Hgt]; [done|].
    pose proof (DayFromYear_mono (YearFromTime t + 1) y ltac:(lia)).
    Z.to_euclidean_division_equations; lia.
  - pose proof (DayFromYear_mono y (YearFromTime t) H).
    Z.to_euclidean_division_equations; lia.
Qed.

Lemma DayWithinYear_range t :
  0 <= DayWithinYear t < 365 + InLeapYear t.
Proof.
  pose proof (YearFromTime_spec t) as [Hlo Hhi].
  rewrite DayFromYear_succ in Hhi.
  unfold DayWithinYear, InLeapYear.
  pose proof (DaysInYear_bounds (YearFromTime t)).
  destruct (Z.eqb_spec (DaysInYear (YearFromTime t)) 365); lia.
Qed.

Lemma MonthFromTime_range t : 0 <= MonthFromTime t <= 11.
Proof. unfold MonthFromTime. repeat case_match; lia. Qed.

Lemma month_start_date t :
  month_start (MonthFromTime t) (InLeapYear t) + DateFromTime t - 1
  = DayWithinYear t.
Proof.
  unfold DateFromTime, MonthFromTime.
  repeat (case_match; [simpl; lia|]). simpl; lia.
Qed.

Lemma MakeDay_of_time t :
  MakeDay (YearFromTime t) (MonthFromTime t) (DateFromTime t) = Day t.
Proof.
  unfold MakeDay.
  pose proof (MonthFromTime_range t) as Hm.
  replace (MonthFromTime t / 12) with 0 by (Z.to_euclidean_division_equations; lia).
  replace (MonthFromTime t mod 12) with (MonthFromTime t) by (Z.to_euclidean_division_equations; lia).
  rewrite Z.add_0_r. fold (InLeapYear t).
  pose proof (month_start_date t). unfold DayWithinYear in *. lia.
Qed.

Lemma MakeTime_of_time t :
  MakeTime (HourFromTime t) (MinFromTime t) (SecFromTime t) 0
  = TimeWithinDay t - msFromTime t.
Proof.
  unfold MakeTime, HourFromTime, MinFromTime, SecFromTime, TimeWithinDay,
    msFromTime, msPerHour, msPerMinute, msPerSecond, msPerDay.
  Z.to_euclidean_division_equations; lia.
Qed.

(** Rebuilding a time value from its UTC fields down to the seconds drops
    the milliseconds, unless the year lies in 0..99, which [Date.UTC]
    reads as 1900..1999. *)
Lemma UTC_of_fields t :
  valid_time t ->
  ~ (0 <= YearFromTime t <= 99) ->
  UTC (YearFromTime t) (MonthFromTime t) (DateFromTime t)
      (HourFromTime t) (MinFromTime t) (SecFromTime t)
  = Num (t - t mod 1000).
Proof.
  intros Hv Hy. unfold UTC.
  replace ((0 <=? YearFromTime t) && (YearFromTime t <=? 99)) with false
    by (symmetry; apply andb_false_iff; lia).
  rewrite MakeDay_of_time, MakeTime_of_time.
  unfold MakeDate, Day, TimeWithinDay, msFromTime, msPerSecond.
  assert (t / msPerDay * msPerDay + (t mod msPerDay - t mod 1000)
          = t - t mod 1000) as ->.
  { unfold msPerDay. Z.to_euclidean_division_equations; lia. }
  unfold TimeClip, valid_time, maxTime in *.
  case_match; [|done].
  exfalso. Z.to_euclidean_division_equations; lia.
Qed.

Lemma epoch_year t : 0 <= t -> 1970 <= YearFromTime t.
Proof.
  intros H. apply YearFromTime_largest.
  change (TimeFromYear 1970) with 0. lia.
Qed.

Lemma YearFromTime_unique t y :
  DayFromYear y <= Day t < DayFromYear (y + 1) -> YearFromTime t = y.
Proof.
  intros [Hlo Hhi]. pose proof (YearFromTime_spec t) as [Hlo' Hhi'].
  destruct (Z.lt_trichotomy (YearFromTime t) y) as [Hlt|[Heq|Hgt]];
    [|exact Heq|].
  - pose proof (DayFromYear_mono (YearFromTime t + 1) y ltac:(lia)). lia.
  - pose proof (DayFromYear_mono (y + 1) (YearFromTime t) ltac:(lia)). lia.
Qed.

(** [MakeDay] is specified by "find a time value [t] such that
    [YearFromTime t] is [ym], [MonthFromTime t] is [mn] and
    [DateFromTime t] is 1": the day number computed above is the day of
    such a [t]. *)
Lemma MakeDay_first_of_month y mn :
  0 <= mn <= 11 ->
  let t := msPerDay * MakeDay y mn 1 in
  Day t = MakeDay y mn 1
  /\ YearFromTime t = y /\ MonthFromTime t = mn /\ DateFromTime t = 1.
Proof.
  intros Hmn t.
  assert (Day t = MakeDay y mn 1) as Hday.
  { unfold t, Day, msPerDay. rewrite Z.mul_comm, Z.div_mul by lia.
    reflexivity. }
  assert (mn / 12 = 0) as Hq by (Z.to_euclidean_division_equations; lia).
  assert (mn mod 12 = mn) as Hr by (Z.to_euclidean_division_equations; lia).
  assert (MakeDay y mn 1
          = DayFromYear y
            + month_start mn (if DaysInYear y =? 365 then 0 else 1)) as Hmk.
  { unfold MakeDay. rewrite Hq, Hr, Z.add_0_r. lia. }
  assert (0 <= month_start mn (if DaysInYear y =? 365 then 0 else 1)
          < DaysInYear y) as Hms.
  { pose proof (DaysInYear_bounds y).
    destruct (Z.eqb_spec (DaysInYear y) 365);
      assert (mn = 0 \/ mn = 1 \/ mn = 2 \/ mn = 3 \/ mn = 4 \/ mn = 5
              \/ mn = 6 \/ mn = 7 \/ mn = 8 \/ mn = 9 \/ mn = 10
              \/ mn = 11) as Hcases by lia;
      repeat (destruct Hcases as [->|Hcases]; [cbn; lia|]);
      subst mn; cbn; lia. }
  assert (YearFromTime t = y) as Hy.
  { apply YearFromTime_unique. rewrite Hday, Hmk, DayFromYear_succ. lia. }
  split; [exact Hday|]. split; [exact Hy|].
  assert (DayWithinYear t
          = month_start mn (if DaysInYear y =? 365 then 0 else 1)) as Hdw.
  { unfold DayWithinYear. rewrite Hy, Hday, Hmk. lia. }
  assert (InLeapYear t = if DaysInYear y =? 365 then 0 else 1) as Hleap.
  { unfold InLeapYear. rewrite Hy. reflexivity. }
  unfold DateFromTime, MonthFromTime. rewrite Hdw, Hleap.
  assert (mn = 0 \/ mn = 1 \/ mn = 2 \/ mn = 3 \/ mn = 4 \/ mn = 5
          \/ mn = 6 \/ mn = 7 \/ mn = 8 \/ mn = 9 \/ mn = 10
          \/ mn = 11) as Hcases by lia.
  destruct (DaysInYear y =? 365);
    repeat (destruct Hcases as [->|Hcases]; [split; reflexivity|]);
    subst mn; split; reflexivity.
Qed.

End JSDateFacts.

(** ** Blocks *)

(** Induction along the chain of predecessors. *)
Lemma BlockChainBlock_chain_ind (P : BlockChainBlock -> Prop) :
  (forall i d ts, P (Block i d None ts)) ->
  (forall i d p ts, P p -> P (Block i d (Some p) ts)) ->
  forall b, P b.
Proof.
  intros Hnone Hsome. fix IH 1. intros [i d [p|] ts].
  - apply Hsome, IH.
  - apply Hnone.
Qed.

Lemma or_else_same (a : string) : or_else a EmptyString = a.
Proof. destruct a; reflexivity. Qed.

Lemma hash_unfold (b : BlockChainBlock) :
  hash b
  = sha256_base64
      (Z_to_string (index b) +:+ LF +:+ previousHash b +:+ LF
         +:+ number_to_string (timestamp b) +:+ LF +:+ data b).
Proof. destruct b. reflexivity. Qed.

Lemma hash_length (b : BlockChainBlock) : String.length (hash b) = 44%nat.
Proof. rewrite hash_unfold. apply sha256_base64_length. Qed.

Lemma hash_nonempty (b : BlockChainBlock) : hash b <> EmptyString.
Proof.
  intros H. pose proof (hash_length b) as Hl. rewrite H in Hl. discriminate.
Qed.

Lemma previousHash_of (b p : BlockChainBlock) :
  priv_previousBlock b = Some p -> previousHash b = hash p.
Proof. unfold previousHash. intros ->. apply or_else_same. Qed.

Lemma previousHash_none (b : BlockChainBlock) :
  priv_previousBlock b = None -> previousHash b = EmptyString.
Proof. unfold previousHash. intros ->. reflexivity. Qed.

(** *** The hash input is ASCII, so its UTF-8 encoding has one byte per
    character *)

Lemma ascii_only_app (s1 s2 : string) :
  ascii_only s1 -> ascii_only s2 -> ascii_only (s1 +:+ s2).
Proof.
  induction s1 as [|c s1 IH]; cbn; [auto|].
  intros [Hc H1] H2. split; [exact Hc | apply IH; assumption].
Qed.

Lemma utf8_encode_ascii (s : string) :
  ascii_only s ->
  utf8_encode s
  = map (fun c => byte_of_Z (char_code c)) (list_ascii_of_string s).
Proof.
  induction s as [|c s IH]; cbn [utf8_encode ascii_only list_ascii_of_string map];
    [reflexivity|].
  intros [Hc Hs]. unfold utf8_encode_char.
  destruct (Z.ltb_spec (char_code c) 128); [|lia].
  rewrite IH by exact Hs. reflexivity.
Qed.

Lemma encode_sextet_ascii (n : Z) : char_code (Base64.encode_sextet n) < 128.
Proof.
  unfold Base64.encode_sextet. generalize (Z.to_nat n). intros k.
  do 64 (destruct k as [|k]; [vm_compute; reflexivity|]).
  vm_compute. reflexivity.
Qed.

Lemma encode_ascii (bs : list byte) : ascii_only (Base64.encode bs).
Proof.
  induction bs as [|b0|b0 b1|b0 b1 b2 rest IH] using list_ind3;
    cbn [Base64.encode ascii_only];
    repeat split;
    try apply encode_sextet_ascii; try exact IH; vm_compute; reflexivity.
Qed.

Lemma string_of_uint_ascii (d : Decimal.uint) :
  ascii_only (NilEmpty.string_of_uint d).
Proof.
  induction d; cbn [NilEmpty.string_of_uint ascii_only];
    try exact I; (split; [vm_compute; reflexivity | assumption]).
Qed.

Lemma Z_to_string_ascii (z : Z) : ascii_only (Z_to_string z).
Proof.
  unfold Z_to_string, NilZero.string_of_int, NilZero.string_of_uint.
  destruct (Z.to_int z) as [d|d]; [|split; [vm_compute; reflexivity|]];
    (destruct d; [repeat split; vm_compute; reflexivity
                 | apply string_of_uint_ascii ..]).
Qed.

Lemma number_to_string_ascii (x : number) : ascii_only (number_to_string x).
Proof.
  destruct x as [z|]; [apply Z_to_string_ascii|].
  repeat split; vm_compute; reflexivity.
Qed.

Lemma hash_input_ascii (b : BlockChainBlock) :
  ascii_only
    (Z_to_string (index b) +:+ LF +:+ previousHash b +:+ LF
       +:+ number_to_string (timestamp b) +:+ LF +:+ data b).
Proof.
  assert (ascii_only LF) as Hlf by (split; [vm_compute; reflexivity | exact I]).
  assert (ascii_only (previousHash b)) as Hprev.
  { unfold previousHash. destruct (priv_previousBlock b) as [p|]; [|exact I].
    rewrite or_else_same, hash_unfold. apply encode_ascii. }
  unfold data.
  repeat apply ascii_only_app;
    first [ exact Hlf | exact Hprev | apply Z_to_string_ascii
          | apply number_to_string_ascii | apply encode_ascii ].
Qed.

(** The timestamp the constructor stores is [Date.UTC] of six fields, so
    a whole number of seconds, whatever the clock says. *)
Lemma UTC_multiple (y m d hh mm ss : Z) (ms : Z) :
  JSDate.UTC y m d hh mm ss = Num ms -> ms mod 1000 = 0.
Proof.
  unfold JSDate.UTC, JSDate.TimeClip. case_match; [discriminate|].
  intros [= <-].
  unfold JSDate.MakeDate, JSDate.MakeTime, JSDate.msPerDay,
    JSDate.msPerHour, JSDate.msPerMinute, JSDate.msPerSecond.
  generalize (JSDate.MakeDay
    (if (0 <=? y) && (y <=? 99) then 1900 + y else y) m d).
  intros day. Z.to_euclidean_division_equations; lia.
Qed.

Lemma new_block_timestamp (i : Z) (d : list byte)
    (prev : option BlockChainBlock) (now : Z) :
  valid_time now ->
  ~ (0 <= getUTCFullYear now <= 99) ->
  timestamp (new_BlockChainBlock i d prev now) = Num (now - now mod 1000).
Proof. intros Hv Hy. apply JSDateFacts.UTC_of_fields; assumption. Qed.

Lemma new_block_whole_seconds (i : Z) (d : list byte)
    (prev : option BlockChainBlock) (now : Z) :
  clock_ok now -> whole_seconds (new_BlockChainBlock i d prev now).
Proof.
  intros [Hlo Hhi]. exists (now - now mod 1000).
  split; [|split].
  - apply new_block_timestamp.
    + unfold valid_time, JSDate.maxTime in *. lia.
    + pose proof (JSDateFacts.epoch_year now Hlo).
      unfold getUTCFullYear. lia.
  - Z.to_euclidean_division_equations; lia.
  - Z.to_euclidean_division_equations; lia.
Qed.

(** ** The heap-level run computes the abstract run *)

Arguments new_BlockChainBlock : simpl never.
Arguments hash : simpl never.

Lemma fresh_array_unused (h : heap) :
  arrays h !! fresh (dom (arrays h)) = None.
Proof. apply not_elem_of_dom, is_fresh. Qed.

Lemma fresh_cell_unused (h : heap) :
  cells h !! fresh (dom (cells h)) = None.
Proof. apply not_elem_of_dom, is_fresh. Qed.

Lemma new_ArrayBlockChain_represents (now : Z) (h0 : heap) :
  exists c h,
    new_ArrayBlockChain now h0 = Some (c, h)
    /\ genesisBlock c = new_BlockChainBlock (-1) [] None now
    /\ represents c [] h {| a_blocks := []; a_views := [] |}.
Proof.
  cbv [new_ArrayBlockChain bind alloc_array ret].
  eexists _, _. split; [reflexivity|]. split; [reflexivity|].
  split; [|split].
  - simpl. apply lookup_insert_eq.
  - constructor.
  - constructor.
Qed.

Lemma addBlock_represents (c : ArrayBlockChain) (its : list iterator)
    (h : heap) (s : abstract_state) (data : string) (now : Z) :
  represents c its h s ->
  let b := appended (genesisBlock c) (a_blocks s) data now in
  exists h',
    addBlock c data now h = Some (b, h')
    /\ represents c its h'
         {| a_blocks := a_blocks s ++ [b]; a_views := a_views s |}.
Proof.
  intros (Hb & Hv & Hn) b.
  cbv [addBlock get_previousBlock bind read_array push ret].
  rewrite Hb. cbv beta iota. rewrite Hb.
  eexists. split; [reflexivity|].
  split; [|split]; simpl.
  - apply lookup_insert_eq.
  - eapply Forall2_impl; [exact Hv|].
    intros it v (Hne & Ha & Hc). repeat split; try assumption.
    rewrite lookup_insert_ne by congruence. exact Ha.
  - exact Hn.
Qed.

Lemma asyncIterator_represents (c : ArrayBlockChain) (its : list iterator)
    (h : heap) (s : abstract_state) :
  represents c its h s ->
  exists it h',
    asyncIterator c h = Some (it, h')
    /\ represents c (its ++ [it]) h'
         {| a_blocks := a_blocks s;
            a_views := a_views s
                         ++ [{| snapshot := a_blocks s; position := 0 |}] |}.
Proof.
  intros (Hb & Hv & Hn).
  cbv [asyncIterator bind read_array alloc_array alloc_cell ret].
  rewrite Hb. cbv beta iota.
  eexists _, _. split; [reflexivity|].
  pose proof (fresh_array_unused h) as Hfa.
  pose proof (fresh_cell_unused h) as Hfc.
  assert (fresh (dom (arrays h)) <> blocks c) as Hne.
  { intros Heq. rewrite Heq, Hb in Hfa. discriminate. }
  split; [|split]; simpl.
  - rewrite lookup_insert_ne by exact Hne. exact Hb.
  - apply Forall2_app.
    + eapply Forall2_impl; [exact Hv|].
      intros it v (Hne' & Ha & Hc). repeat split; try assumption.
      * rewrite lookup_insert_ne; [exact Ha|].
        intros Heq. rewrite Heq, Ha in Hfa. discriminate.
      * rewrite lookup_insert_ne; [exact Hc|].
        intros Heq. rewrite Heq, Hc in Hfc. discriminate.
    + constructor; [|constructor]. simpl. repeat split.
      * exact Hne.
      * apply lookup_insert_eq.
      * apply lookup_insert_eq.
  - rewrite map_app. simpl. apply NoDup_app. split; [exact Hn|].
    split; [|apply NoDup_singleton].
    intros r Hr Hr'. apply list_elem_of_singleton in Hr'. subst r.
    apply list_elem_of_fmap in Hr as (it & Heq & Hit).
    apply list_elem_of_lookup in Hit as (k & Hk).
    destruct (Forall2_lookup_l _ _ _ _ _ Hv Hk) as (v & _ & _ & _ & Hc).
    rewrite Heq, Hc in Hfc. discriminate.
Qed.

Lemma next_represents (c : ArrayBlockChain) (its : list iterator)
    (h : heap) (s : abstract_state) (k : nat) (it : iterator) (v : view) :
  represents c its h s ->
  its !! k = Some it ->
  a_views s !! k = Some v ->
  exists h',
    next it h = Some (result_at (snapshot v) (position v), h')
    /\ represents c its h'
         {| a_blocks := a_blocks s;
            a_views := <[k := {| snapshot := snapshot v;
                                 position := position v + 1 |}]>
                         (a_views s) |}.
Proof.
  intros (Hb & Hv & Hn) Hit Hview.
  destruct (Forall2_lookup_lr _ _ _ _ _ _ Hv Hit Hview) as (Hne & Ha & Hc).
  cbv [next bind read_cell write_cell read_array ret].
  rewrite Hc. cbv beta iota. rewrite Hc. cbv beta iota.
  cbn [arrays]. rewrite Ha.
  eexists. split; [reflexivity|].
  split; [|split]; cbn [arrays cells a_blocks a_views].
  - exact Hb.
  - apply Forall2_same_length_lookup in Hv as [Hlen Hall].
    apply Forall2_same_length_lookup. split.
    { rewrite length_insert. exact Hlen. }
    intros j it' v' Hj Hj'.
    destruct (decide (j = k)) as [->|Hjk].
    + rewrite list_lookup_insert_eq in Hj'
        by (apply lookup_lt_Some in Hview; exact Hview).
      injection Hj' as <-. rewrite Hit in Hj. injection Hj as <-.
      cbn [snapshot position]. repeat split; try assumption.
      apply lookup_insert_eq.
    + rewrite list_lookup_insert_ne in Hj' by congruence.
      destruct (Hall j it' v' Hj Hj') as (Hne' & Ha' & Hc').
      repeat split; try assumption.
      rewrite lookup_insert_ne; [exact Hc'|].
      intros Heq. apply Hjk.
      apply (NoDup_lookup _ j k (cursorIndex it') Hn);
        rewrite list_lookup_fmap.
      * rewrite Hj. reflexivity.
      * rewrite Hit. cbn. rewrite Heq. reflexivity.
  - exact Hn.
Qed.

Lemma step_abstract (c : ArrayBlockChain) (its : list iterator)
    (h : heap) (s : abstract_state) (a : action) :
  represents c its h s ->
  exists its' h',
    step c its a h
    = Some ((fst (abstract_step (genesisBlock c) s a), its'), h')
    /\ represents c its' h' (snd (abstract_step (genesisBlock c) s a)).
Proof.
  intros Hrep. destruct a as [data now| |k]; cbn [step abstract_step].
  - destruct (addBlock_represents c its h s data now Hrep) as (h' & Hrun & H').
    exists its, h'. split; [|exact H'].
    unfold bind. rewrite Hrun. reflexivity.
  - destruct (asyncIterator_represents c its h s Hrep)
      as (it & h' & Hrun & H').
    exists (its ++ [it]), h'. split; [|exact H'].
    unfold bind. rewrite Hrun. reflexivity.
  - pose proof Hrep as (_ & Hv & _).
    destruct (its !! k) as [it|] eqn:Hit.
    + destruct (Forall2_lookup_l _ _ _ _ _ Hv Hit) as (v & Hview & _).
      rewrite Hview.
      destruct (next_represents c its h s k it v Hrep Hit Hview)
        as (h' & Hrun & H').
      exists its, h'. split; [|exact H'].
      unfold bind. rewrite Hrun. reflexivity.
    + assert (a_views s !! k = None) as ->.
      { apply lookup_ge_None. apply lookup_ge_None in Hit.
        apply Forall2_length in Hv. lia. }
      exists its, h. split; [reflexivity | exact Hrep].
Qed.

Lemma run_abstract (c : ArrayBlockChain) (acts : list action) :
  forall (its : list iterator) (h : heap) (s : abstract_state),
    represents c its h s ->
    exists its' h',
      run c its acts h
      = Some ((fst (abstract_run (genesisBlock c) s acts), its'), h')
      /\ represents c its' h' (snd (abstract_run (genesisBlock c) s acts)).
Proof.
  induction acts as [|a acts IH]; intros its h s Hrep.
  - exists its, h. split; [reflexivity | exact Hrep].
  - destruct (step_abstract c its h s a Hrep) as (its1 & h1 & Hstep & Hrep1).
    destruct (IH its1 h1 _ Hrep1) as (its2 & h2 & Hrun & Hrep2).
    exists its2, h2. split; [|exact Hrep2].
    cbn [run abstract_run]. unfold bind at 1. rewrite Hstep.
    cbn [fst snd]. unfold bind at 1. rewrite Hrun. reflexivity.
Qed.

(** A session always finishes; its trace and its chain are those of the
    abstract run. *)
Lemma session_abstract (now0 : Z) (acts : list action) (h0 : heap) :
  exists c h1 h its,
    new_ArrayBlockChain now0 h0 = Some (c, h1)
    /\ session now0 acts h0
       = Some ((c, fst (abstract_run (genesis now0) initial acts)), h)
    /\ genesisBlock c = genesis now0
    /\ represents c its h (snd (abstract_run (genesis now0) initial acts)).
Proof.
  destruct (new_ArrayBlockChain_represents now0 h0) as (c & h1 & Hnew & Hg & H1).
  destruct (run_abstract c acts [] h1 _ H1) as (its & h & Hrun & Hrep).
  rewrite Hg in Hrun, Hrep.
  exists c, h1, h, its. split; [exact Hnew|]. split; [|split; assumption].
  unfold session, bind. rewrite Hnew, Hrun. reflexivity.
Qed.

(** ** Abstract runs *)

Lemma abstract_run_app (gen : BlockChainBlock) (acts1 acts2 : list action) :
  forall s : abstract_state,
    abstract_run gen s (acts1 ++ acts2)
    = (fst (abstract_run gen s acts1)
         ++ fst (abstract_run gen (snd (abstract_run gen s acts1)) acts2),
       snd (abstract_run gen (snd (abstract_run gen s acts1)) acts2)).
Proof.
  induction acts1 as [|a acts1 IH]; intros s.
  - cbn. destruct (abstract_run gen s acts2). reflexivity.
  - cbn [app abstract_run fst snd]. rewrite IH. reflexivity.
Qed.

Lemma abstract_step_blocks (gen : BlockChainBlock) (s : abstract_state)
    (a : action) :
  a_blocks (snd (abstract_step gen s a))
  = a_blocks s ++ added [fst (abstract_step gen s a)].
Proof.
  destruct a as [data now| |k]; cbn.
  - reflexivity.
  - rewrite app_nil_r. reflexivity.
  - destruct (a_views s !! k); cbn; rewrite app_nil_r; reflexivity.
Qed.

Lemma added_cons (e : event) (evs : list event) :
  added (e :: evs) = added [e] ++ added evs.
Proof. destruct e; reflexivity. Qed.

Lemma added_app (evs1 evs2 : list event) :
  added (evs1 ++ evs2) = added evs1 ++ added evs2.
Proof.
  induction evs1 as [|e evs1 IH]; [reflexivity|].
  cbn [app]. rewrite (added_cons e), (added_cons e evs1), IH.
  rewrite app_assoc. reflexivity.
Qed.

(** The chain after a run is the chain before it followed by the blocks
    the run's [addBlock] calls returned, in call order. *)
Lemma abstract_run_blocks (gen : BlockChainBlock) (acts : list action) :
  forall s : abstract_state,
    a_blocks (snd (abstract_run gen s acts))
    = a_blocks s ++ added (fst (abstract_run gen s acts)).
Proof.
  induction acts as [|a acts IH]; intros s; cbn [abstract_run fst snd].
  - cbn. rewrite app_nil_r. reflexivity.
  - rewrite IH, abstract_step_blocks, <- app_assoc. f_equal.
    symmetry. apply added_cons.
Qed.

Lemma abstract_run_added_length (gen : BlockChainBlock)
    (acts : list action) :
  forall s : abstract_state,
    length (added (fst (abstract_run gen s acts))) = count_adds acts.
Proof.
  induction acts as [|a acts IH]; intros s; [reflexivity|].
  cbn [abstract_run fst snd]. rewrite added_cons, length_app, IH.
  destruct a as [data now| |k]; cbn; [reflexivity..|].
  destruct (a_views s !! k); reflexivity.
Qed.

Lemma abstract_run_views_length (gen : BlockChainBlock)
    (acts : list action) :
  forall s : abstract_state,
    length (a_views (snd (abstract_run gen s acts)))
    = (length (a_views s) + count_opens acts)%nat.
Proof.
  induction acts as [|a acts IH]; intros s; cbn [abstract_run fst snd].
  - cbn. lia.
  - rewrite IH. destruct a as [data now| |k]; cbn.
    + reflexivity.
    + rewrite length_app. cbn. lia.
    + destruct (a_views s !! k); cbn; [|reflexivity].
      rewrite length_insert. reflexivity.
Qed.

(** *** Linkage *)

Lemma tail_block_nil (gen : BlockChainBlock) : tail_block gen [] = gen.
Proof. reflexivity. Qed.

Lemma tail_block_snoc (gen b : BlockChainBlock)
    (bs : list BlockChainBlock) :
  tail_block gen (bs ++ [b]) = b.
Proof.
  unfold tail_block, array_get. rewrite length_app. cbn [length].
  destruct (Z.ltb_spec (Z.of_nat (length bs + 1) - 1) 0); [lia|].
  replace (Z.to_nat (Z.of_nat (length bs + 1) - 1)) with (length bs) by lia.
  rewrite lookup_app_r by lia. rewrite Nat.sub_diag. reflexivity.
Qed.

Lemma tail_block_last (gen : BlockChainBlock) (bs : list BlockChainBlock) :
  tail_block gen bs
  = match length bs with
    | O => gen
    | S j => default gen (bs !! j)
    end.
Proof.
  destruct bs as [|b bs] using rev_ind; [reflexivity|].
  rewrite tail_block_snoc, length_app. cbn [length].
  replace (length bs + 1)%nat with (S (length bs)) by lia.
  rewrite lookup_app_r by lia. rewrite Nat.sub_diag. reflexivity.
Qed.

Lemma linked_nil (gen : BlockChainBlock) : linked gen [].
Proof. intros i b Hb. discriminate. Qed.

Lemma linked_tail_index (gen : BlockChainBlock)
    (bs : list BlockChainBlock) :
  index gen = -1 -> linked gen bs ->
  index (tail_block gen bs) + 1 = Z.of_nat (length bs).
Proof.
  intros Hg Hl. rewrite tail_block_last.
  destruct (length bs) as [|j] eqn:Hlen; [lia|].
  destruct (bs !! j) as [b|] eqn:Hb.
  - destruct (Hl j b Hb) as [Hi _]. cbn. lia.
  - apply lookup_ge_None in Hb. lia.
Qed.

Lemma linked_snoc (gen : BlockChainBlock) (bs : list BlockChainBlock)
    (data : string) (now : Z) :
  index gen = -1 -> linked gen bs ->
  linked gen (bs ++ [appended gen bs data now]).
Proof.
  intros Hg Hl i b Hb.
  destruct (decide (i < length bs)%nat) as [Hlt|Hge].
  - rewrite lookup_app_l in Hb by exact Hlt.
    destruct (Hl i b Hb) as [Hi Hp]. split; [exact Hi|].
    rewrite Hp. destruct i as [|j]; [reflexivity|].
    rewrite lookup_app_l by lia. reflexivity.
  - rewrite lookup_app_r in Hb by lia.
    destruct (i - length bs)%nat as [|n] eqn:Hn; [|destruct n; discriminate].
    injection Hb as <-. assert (i = length bs) as -> by lia.
    split.
    + unfold appended, new_BlockChainBlock. cbn [index].
      apply linked_tail_index; assumption.
    + unfold appended, new_BlockChainBlock. cbn [priv_previousBlock].
      rewrite tail_block_last.
      destruct (length bs) as [|j] eqn:Hlen; [reflexivity|].
      rewrite lookup_app_l by lia. reflexivity.
Qed.

Lemma abstract_run_linked (gen : BlockChainBlock) (acts : list action) :
  index gen = -1 ->
  forall s : abstract_state,
    linked gen (a_blocks s) ->
    linked gen (a_blocks (snd (abstract_run gen s acts))).
Proof.
  intros Hg. induction acts as [|a acts IH]; intros s Hl; [exact Hl|].
  cbn [abstract_run snd]. apply IH.
  destruct a as [data now| |k]; cbn.
  - apply linked_snoc; assumption.
  - exact Hl.
  - destruct (a_views s !! k); exact Hl.
Qed.

(** *** Iterators *)

(** The results an iterator returns depend on its snapshot and on how
    often it was called, and on nothing else the client does. *)
Lemma abstract_run_steps (gen : BlockChainBlock) (acts : list action) :
  forall (s : abstract_state) (k : nat) (v : view),
    a_views s !! k = Some v ->
    steps_of k (fst (abstract_run gen s acts))
    = map (result_at (snapshot v))
          (seqZ (position v) (Z.of_nat (count_next k acts))).
Proof.
  induction acts as [|a acts IH]; intros s k v Hv.
  - cbn [count_next]. rewrite seqZ_nil by lia. reflexivity.
  - cbn [abstract_run fst snd].
    destruct a as [data now| |k']; cbn [abstract_step count_next].
    + cbn [fst snd steps_of]. apply IH. exact Hv.
    + cbn [fst snd steps_of]. apply IH. cbn [a_views].
      apply lookup_app_l_Some. exact Hv.
    + destruct (a_views s !! k') as [v'|] eqn:Hv'; cbn [fst snd steps_of];
        destruct (Nat.eqb_spec k k') as [<-|Hne].
      * rewrite Hv in Hv'. injection Hv' as <-.
        rewrite seqZ_cons by lia. cbn [map]. f_equal.
        rewrite (IH _ k {| snapshot := snapshot v;
                           position := position v + 1 |}).
        -- cbn [snapshot position]. do 2 f_equal; lia.
        -- cbn [a_views]. apply list_lookup_insert_eq.
           apply lookup_lt_Some in Hv. exact Hv.
      * apply IH. cbn [a_views].
        rewrite list_lookup_insert_ne by congruence. exact Hv.
      * congruence.
      * apply IH. exact Hv.
Qed.

Lemma result_at_value (snap : list BlockChainBlock) (i : Z)
    (b : BlockChainBlock) :
  value (result_at snap i) = Some b ->
  0 <= i /\ snap !! Z.to_nat i = Some b.
Proof.
  unfold result_at, array_get. cbn [value].
  destruct (Z.ltb_spec i 0); [discriminate|]. intros H'. split; [lia|exact H'].
Qed.

(** *** Timestamps *)

Lemma abstract_run_whole_seconds (gen : BlockChainBlock)
    (acts : list action) :
  Forall action_clock_ok acts ->
  forall s : abstract_state,
    Forall whole_seconds (a_blocks s) ->
    Forall whole_seconds (a_blocks (snd (abstract_run gen s acts))).
Proof.
  induction 1 as [|a acts Ha _ IH]; intros s Hs; [exact Hs|].
  cbn [abstract_run snd]. apply IH.
  destruct a as [data now| |k]; cbn.
  - apply Forall_app. split; [exact Hs|].
    constructor; [|constructor].
    apply new_block_whole_seconds. exact Ha.
  - exact Hs.
  - destruct (a_views s !! k); exact Hs.
Qed.

(** ** Iteration with [for await] *)

Lemma next_spec (it : iterator) (h : heap) (snap : list BlockChainBlock)
    (pos : Z) :
  arrays h !! copyOfBlocks it = Some snap ->
  cells h !! cursorIndex it = Some pos ->
  next it h
  = Some (result_at snap pos,
          Heap (arrays h) (<[cursorIndex it := pos + 1]> (cells h))).
Proof.
  intros Ha Hc. cbv [next bind read_cell write_cell read_array ret].
  rewrite Hc. cbv beta iota. rewrite Hc. cbv beta iota.
  cbn [arrays]. rewrite Ha. reflexivity.
Qed.



(** ** Sessions *)

Lemma genesis_index (now0 : Z) : index (genesis now0) = -1.
Proof. reflexivity. Qed.

(** What a session leaves behind: the trace [evs], the stored blocks (the
    blocks the [addBlock] calls returned, in call order), one per call,
    linked from the genesis anchor. *)
Lemma session_chain (now0 : Z) (acts : list action) (h0 : heap) :
  exists c h1 h evs,
    new_ArrayBlockChain now0 h0 = Some (c, h1)
    /\ session now0 acts h0 = Some ((c, evs), h)
    /\ evs = fst (abstract_run (genesis now0) initial acts)
    /\ genesisBlock c = genesis now0
    /\ stored c h = Some (added evs)
    /\ length (added evs) = count_adds acts
    /\ linked (genesis now0) (added evs).
Proof.
  destruct (session_abstract now0 acts h0)
    as (c & h1 & h & its & Hnew & Hrun & Hg & Hb & _).
  pose proof (abstract_run_blocks (genesis now0) acts initial) as Hblocks.
  cbn [initial a_blocks app] in Hblocks.
  exists c, h1, h, (fst (abstract_run (genesis now0) initial acts)).
  split; [exact Hnew|]. split; [exact Hrun|]. split; [reflexivity|].
  split; [exact Hg|]. split; [|split].
  - unfold stored. rewrite Hb, Hblocks. reflexivity.
  - apply abstract_run_added_length.
  - rewrite <- Hblocks. apply abstract_run_linked.
    + apply genesis_index.
    + apply linked_nil.
Qed.

Example driver_chain :
  match session 1700000000000 driver empty_heap with
  | Some (c, _, h) =>
      option_map (map (fun b => (index b, previousHash b, hash b, data b)))
                 (stored c h)
  | None => None
  end
  = Some
      [ (0, "TJB/eBA934CQknbmFfXQ+cF8aPyAL0n/tmYEZ2q62OE=",
            "02UZ8Cv/v9wR6mIHYpbzyxAA5f/C4FesGStsYCfXgr8=", "dGVzdDE=");
        (1, "02UZ8Cv/v9wR6mIHYpbzyxAA5f/C4FesGStsYCfXgr8=",
            "4aysoIY3ND8uQD/UecLowggYb1cqUyBllD7E54Wzz1c=", "dGVzdDI=");
        (2, "4aysoIY3ND8uQD/UecLowggYb1cqUyBllD7E54Wzz1c=",
            "6VrNiLwaRRT1Z2N051xVjyRXXU4V0qdC/nmgKddHTkY=", "dGVzdDM=") ].
Proof. vm_compute. reflexivity. Qed.

(** An iterator opened between two appends: it returns the first block
    and then reports the end, while an iterator opened after the second
    append returns both blocks.  Each result is shown as the iterator's
    number, [done], and the index of [value]. *)
Example isolation_example :
  match
    session 1700000000000
      [ CallAddBlock "dGVzdDE=" 1700000000123; CallAsyncIterator;
        CallAddBlock "dGVzdDI=" 1700000001456; CallNext 0; CallNext 0;
        CallAsyncIterator; CallNext 1; CallNext 1; CallNext 1 ]
      empty_heap
  with
  | Some (_, evs, _) =>
      flat_map (fun e =>
                  match e with
                  | Stepped k r => [(k, done r, option_map index (value r))]
                  | _ => []
                  end) evs
  | None => []
  end
  = [ (0%nat, false, Some 0); (0%nat, true, None);
      (1%nat, false, Some 0); (1%nat, false, Some 1); (1%nat, true, None) ].
Proof. vm_compute. reflexivity. Qed.

(** * The claims *)

(** C1 (chain linkage).  After the calls [acts] on a freshly created chain,
    [count_adds acts] of them appends and the others iterator calls, in any
    order, the chain stores one block per append, and for every [i] from 1
    to [count_adds acts - 1] the block at position [i] has [previousHash]
    equal to the [hash] of the block at position [i - 1] and has [index]
    equal to [i]. *)
Theorem chain_linkage (h0 : heap) (now0 : Z) (acts : list action) (i : nat) :
  (1 <= i < count_adds acts)%nat ->
  exists c evs h bs prev b,
    session now0 acts h0 = Some ((c, evs), h)
    /\ stored c h = Some bs
    /\ length bs = count_adds acts
    /\ bs !! (i - 1)%nat = Some prev
    /\ bs !! i = Some b
    /\ previousHash b = hash prev
    /\ index b = Z.of_nat i.
Proof.
  intros Hi.
  destruct (session_chain now0 acts h0)
    as (c & h1 & h & evs & _ & Hrun & _ & Hg & Hst & Hlen & Hl).
  destruct (lookup_lt_is_Some_2 (added evs) i) as [b Hb]; [lia|].
  destruct (lookup_lt_is_Some_2 (added evs) (i - 1)) as [prev Hprev]; [lia|].
  exists c, evs, h, (added evs), prev, b.
  destruct (Hl i b Hb) as [Hidx Hp].
  do 5 (split; [assumption|]). split; [|exact Hidx].
  destruct i as [|j]; [lia|].
  replace (S j - 1)%nat with j in Hprev by lia.
  rewrite Hprev in Hp. apply previousHash_of. exact Hp.
Qed.

Lemma chain_linkage_witness :
  (1 <= 1 < count_adds driver)%nat
  /\ exists c evs h bs prev b,
       session 1700000000000 driver empty_heap = Some ((c, evs), h)
       /\ stored c h = Some bs
       /\ length bs = count_adds driver
       /\ bs !! (1 - 1)%nat = Some prev
       /\ bs !! 1%nat = Some b
       /\ previousHash b = hash prev
       /\ index b = Z.of_nat 1.
Proof.
  split; [cbn; lia|].
  apply (chain_linkage empty_heap 1700000000000 driver 1). cbn; lia.
Defined.

(** C2, as stated, fails: the first block appended to a fresh chain has
    the genesis anchor as its previous block, so its [previousHash] is the
    anchor's hash, 44 characters of Base64, and not the empty string. *)
Lemma first_block_previousHash_counterexample :
  exists c h b h',
    new_ArrayBlockChain 1700000000000 empty_heap = Some (c, h)
    /\ addBlock c "dGVzdDE=" 1700000000123 h = Some (b, h')
    /\ index b = 0
    /\ previousHash b = "TJB/eBA934CQknbmFfXQ+cF8aPyAL0n/tmYEZ2q62OE="
    /\ previousHash b <> EmptyString.
Proof.
  eexists _, _, _, _.
  split; [vm_compute; reflexivity|].
  split; [vm_compute; reflexivity|].
  split; [reflexivity|].
  split; [vm_compute; reflexivity|].
  vm_compute. discriminate.
Qed.

(** C2, amended.  The first block appended to a freshly created chain has
    [index] 0 and [previousHash] equal to the hash of the chain's genesis
    anchor, a Base64 text of 44 characters; the anchor has index -1 and
    the empty string as its own [previousHash]. *)
Theorem first_block_links_to_genesis (h0 : heap) (now0 : Z)
    (arg : string) (now : Z) :
  exists c h b,
    session now0 [CallAddBlock arg now] h0 = Some ((c, [Added b]), h)
    /\ stored c h = Some [b]
    /\ index b = 0
    /\ previousHash b = hash (genesisBlock c)
    /\ String.length (previousHash b) = 44%nat
    /\ index (genesisBlock c) = -1
    /\ previousHash (genesisBlock c) = EmptyString.
Proof.
  destruct (session_chain now0 [CallAddBlock arg now] h0)
    as (c & h1 & h & evs & _ & Hrun & Hevs & Hg & Hst & _ & _).
  cbn in Hevs. subst evs. cbn [added] in Hst.
  eexists c, h, _. split; [exact Hrun|]. split; [exact Hst|].
  rewrite Hg. split; [reflexivity|].
  assert (previousHash (appended (genesis now0) [] arg now)
          = hash (genesis now0)) as Hprev.
  { apply previousHash_of. reflexivity. }
  split; [exact Hprev|]. split; [rewrite Hprev; apply hash_length|].
  split; reflexivity.
Qed.

(** C3 (hash).  For every block, [hash] is the Base64 text of the SHA-256
    digest of the UTF-8 encoding of
    [{index}\n{previousHash}\n{timestamp}\n{payloadBase64}], where
    [payloadBase64] is the payload re-encoded as Base64: the getter
    computes [spec_hash], for the block and for every predecessor it
    reads. *)
Theorem hash_is_spec_hash (b : BlockChainBlock) : hash b = spec_hash b.
Proof.
  induction b as [i d ts|i d p ts IH] using BlockChainBlock_chain_ind.
  - reflexivity.
  - rewrite hash_unfold. unfold previousHash. cbn [priv_previousBlock].
    rewrite or_else_same, IH. reflexivity.
Qed.

(** C4, as stated, fails: the [timestamp] accessor returns milliseconds,
    not seconds.  A block constructed at 2023-11-14T22:13:20.123Z has
    timestamp 1700000000000, while the UNIX timestamp in seconds of that
    instant is 1700000000. *)
Lemma timestamp_seconds_counterexample :
  timestamp (new_BlockChainBlock 0 [] None 1700000000123)
  = Num 1700000000000
  /\ timestamp (new_BlockChainBlock 0 [] None 1700000000123)
     <> Num (1700000000123 / 1000).
Proof. split; [vm_compute; reflexivity | vm_compute; discriminate]. Qed.

(** C4, amended.  For every block constructed at an instant [now] that a
    [Date] can hold and whose UTC year is not in 0..99, the stored instant
    is [now] with its sub-second part discarded, and the [timestamp]
    accessor returns it in milliseconds since the UNIX epoch: 1000 times
    the whole number of seconds [now / 1000]. *)
Theorem timestamp_is_whole_seconds_in_milliseconds (i : Z)
    (d : list byte) (prev : option BlockChainBlock) (now : Z) :
  valid_time now ->
  ~ (0 <= getUTCFullYear now <= 99) ->
  timestamp (new_BlockChainBlock i d prev now) = Num (1000 * (now / 1000))
  /\ 1000 * (now / 1000) = now - now mod 1000.
Proof.
  intros Hv Hy.
  assert (1000 * (now / 1000) = now - now mod 1000) as Heq
    by (Z.to_euclidean_division_equations; lia).
  split; [|exact Heq]. rewrite Heq. apply new_block_timestamp; assumption.
Qed.

Lemma timestamp_is_whole_seconds_in_milliseconds_witness :
  valid_time 1700000000123
  /\ ~ (0 <= getUTCFullYear 1700000000123 <= 99)
  /\ timestamp (new_BlockChainBlock 0 [] None 1700000000123)
     = Num (1000 * (1700000000123 / 1000))
  /\ 1000 * (1700000000123 / 1000) = 1700000000123 - 1700000000123 mod 1000.
Proof.
  assert (valid_time 1700000000123) as Hv
    by (unfold valid_time, JSDate.maxTime; lia).
  assert (~ (0 <= getUTCFullYear 1700000000123 <= 99)) as Hy
    by (vm_compute; intros [_ H]; apply H; reflexivity).
  split; [exact Hv|]. split; [exact Hy|].
  exact (timestamp_is_whole_seconds_in_milliseconds
           0 [] None 1700000000123 Hv Hy).
Defined.

(** C5 (append-only).  After any calls [acts1] the chain stores as many
    blocks as [acts1] has appends; after any further calls [acts2] it
    stores as many as [acts1 ++ acts2] has appends, and the blocks that
    were stored before are still there, at the same positions, with the
    same [hash] and the same [data]. *)
Theorem append_only (h0 : heap) (now0 : Z) (acts1 acts2 : list action) :
  exists c evs1 evs2 h1 h2 bs1 bs2,
    session now0 acts1 h0 = Some ((c, evs1), h1)
    /\ stored c h1 = Some bs1
    /\ length bs1 = count_adds acts1
    /\ session now0 (acts1 ++ acts2) h0 = Some ((c, evs1 ++ evs2), h2)
    /\ stored c h2 = Some bs2
    /\ length bs2 = count_adds (acts1 ++ acts2)
    /\ take (length bs1) bs2 = bs1
    /\ map hash (take (length bs1) bs2) = map hash bs1
    /\ map data (take (length bs1) bs2) = map data bs1.
Proof.
  destruct (session_chain now0 acts1 h0)
    as (c & h1' & h1 & evs1 & Hnew & Hrun1 & Hevs1 & _ & Hst1 & Hlen1 & _).
  destruct (session_chain now0 (acts1 ++ acts2) h0)
    as (c' & h2' & h2 & evs & Hnew' & Hrun2 & Hevs & _ & Hst2 & Hlen2 & _).
  rewrite Hnew in Hnew'. injection Hnew' as <- <-.
  rewrite abstract_run_app in Hevs. cbn [fst] in Hevs. rewrite <- Hevs1 in Hevs.
  set (evs2 := fst (abstract_run (genesis now0)
                      (snd (abstract_run (genesis now0) initial acts1))
                      acts2)) in Hevs.
  subst evs. rewrite added_app in Hst2, Hlen2.
  assert (take (length (added evs1)) (added evs1 ++ added evs2)
          = added evs1) as Htake by (rewrite take_app_length; reflexivity).
  exists c, evs1, evs2, h1, h2, (added evs1), (added evs1 ++ added evs2).
  do 6 (split; [assumption|]).
  rewrite Htake. repeat split.
Qed.

(** C6 (snapshot isolation).  Let an iterator be opened after the calls
    [acts1], and let any calls [acts2] follow, appends and [next] calls on
    this or other iterators in any order.  Then the appends of [acts2]
    do reach the chain, yet the [j]-th [next] on the iterator returns
    what position [j] of the blocks stored when it was opened gives, and
    no block appended by [acts2] is ever a value it returns. *)
Theorem snapshot_isolation (h0 : heap) (now0 : Z)
    (acts1 acts2 : list action) :
  exists c evs1 evs2 h1 h2,
    session now0 acts1 h0 = Some ((c, evs1), h1)
    /\ stored c h1 = Some (added evs1)
    /\ session now0 (acts1 ++ CallAsyncIterator :: acts2) h0
       = Some ((c, evs1 ++ Opened :: evs2), h2)
    /\ stored c h2 = Some (added evs1 ++ added evs2)
    /\ length (added evs2) = count_adds acts2
    /\ steps_of (count_opens acts1) evs2
       = map (result_at (added evs1))
             (seqZ 0 (Z.of_nat (count_next (count_opens acts1) acts2)))
    /\ (forall b r,
          In b (added evs2) ->
          In r (steps_of (count_opens acts1) evs2) ->
          value r <> Some b).
Proof.
  set (gen := genesis now0).
  destruct (session_chain now0 acts1 h0)
    as (c & h1' & h1 & evs1 & Hnew & Hrun1 & Hevs1 & _ & Hst1 & _ & Hl1).
  destruct (session_chain now0 (acts1 ++ CallAsyncIterator :: acts2) h0)
    as (c' & h2' & h2 & evs & Hnew' & Hrun2 & Hevs & _ & Hst2 & _ & Hl2).
  rewrite Hnew in Hnew'. injection Hnew' as <- <-.
  fold gen in Hevs1, Hevs, Hl1, Hl2.
  rewrite abstract_run_app in Hevs. cbn [fst] in Hevs. rewrite <- Hevs1 in Hevs.
  set (s1 := snd (abstract_run gen initial acts1)) in Hevs.
  cbn [abstract_run abstract_step fst snd] in Hevs.
  set (s1' := {| a_blocks := a_blocks s1;
                 a_views := a_views s1
                   ++ [{| snapshot := a_blocks s1; position := 0 |}] |})
    in Hevs.
  set (evs2 := fst (abstract_run gen s1' acts2)) in Hevs.
  assert (a_blocks s1 = added evs1) as Hb1.
  { subst s1 evs1. apply (abstract_run_blocks gen acts1 initial). }
  assert (a_views s1' !! count_opens acts1
          = Some {| snapshot := added evs1; position := 0 |}) as Hview.
  { cbn [s1' a_views]. rewrite <- Hb1.
    pose proof (abstract_run_views_length gen acts1 initial) as Hlen.
    cbn [initial a_views length Nat.add] in Hlen. fold s1 in Hlen.
    rewrite <- Hlen. apply list_lookup_middle. reflexivity. }
  pose proof (abstract_run_steps gen acts2 s1' _ _ Hview) as Hsteps.
  fold evs2 in Hsteps. cbn [snapshot position] in Hsteps.
  subst evs. rewrite added_app in Hst2, Hl2.
  cbn [added] in Hst2, Hl2.
  exists c, evs1, evs2, h1, h2.
  do 4 (split; [assumption|]).
  split; [apply abstract_run_added_length|].
  split; [exact Hsteps|].
  intros b r Hb Hr Hval. rewrite Hsteps in Hr.
  apply in_map_iff in Hr as (j & <- & _).
  apply result_at_value in Hval as [Hj Hval].
  destruct (Hl1 _ _ Hval) as [Hidx1 _].
  apply lookup_lt_Some in Hval.
  apply list_elem_of_In, list_elem_of_lookup in Hb as (m & Hm).
  assert ((added evs1 ++ added evs2) !! (length (added evs1) + m)%nat
          = Some b) as Hm'.
  { rewrite lookup_app_r by lia.
    replace (length (added evs1) + m - length (added evs1))%nat with m
      by lia. exact Hm. }
  destruct (Hl2 _ _ Hm') as [Hidx2 _]. lia.
Qed.

(** C7 (round trip).  Whatever the chain has seen before, the block that
    [addBlock(arg)] returns holds the bytes [arg] decodes to, and decoding
    the Base64 text its [data] accessor returns gives exactly these bytes
    back.  The same holds for a block with any payload, the empty one
    included. *)
Theorem data_round_trip (h0 : heap) (now0 : Z) (acts : list action)
    (arg : string) (now : Z) :
  (exists c evs h b,
     session now0 (acts ++ [CallAddBlock arg now]) h0
     = Some ((c, evs ++ [Added b]), h)
     /\ priv_data b = Base64.decode arg
     /\ Base64.decode (data b) = priv_data b)
  /\ (forall (payload : list byte) (i : Z) (prev : option BlockChainBlock),
        Base64.decode (data (new_BlockChainBlock i payload prev now))
        = payload)
  /\ Base64.decode (data (new_BlockChainBlock 0 [] None now)) = [].
Proof.
  split; [|split].
  - destruct (session_chain now0 (acts ++ [CallAddBlock arg now]) h0)
      as (c & h1 & h & evs & _ & Hrun & Hevs & _).
    rewrite abstract_run_app in Hevs. cbn in Hevs.
    eexists c, _, h, _. split; [rewrite Hrun, Hevs; reflexivity|].
    split; [reflexivity|]. apply Base64Facts.decode_encode.
  - intros payload i prev. apply Base64Facts.decode_encode.
  - reflexivity.
Qed.



Example decode_missing_padding :
  Base64.encode (Base64.decode "dGVzdA") = "dGVzdA==".
Proof. vm_compute. reflexivity. Qed.

Example decode_loose_bits :
  Base64.encode (Base64.decode "dGVzdB==") = "dGVzdA==".
Proof. vm_compute. reflexivity. Qed.

Example decode_skips_illegal_characters :
  Base64.encode (Base64.decode "dGVz dDE=!") = "dGVzdDE=".
Proof. vm_compute. reflexivity. Qed.

Example decode_url_alphabet :
  Base64.encode (Base64.decode "-_-_") = "+/+/".
Proof. vm_compute. reflexivity. Qed.

(** C9 (re-encoding).  [addBlock(arg)] stores the bytes [arg] decodes to
    and nothing else of [arg]: the [data] accessor of the block it returns
    is the Base64 text of these bytes.  It equals [arg] exactly when [arg]
    is canonical Base64; for every other argument it differs from [arg],
    as it does for an argument without its padding. *)
Theorem addBlock_reencodes (h0 : heap) (now0 : Z) (acts : list action)
    (arg : string) (now : Z) :
  (exists c evs h b,
     session now0 (acts ++ [CallAddBlock arg now]) h0
     = Some ((c, evs ++ [Added b]), h)
     /\ priv_data b = Base64.decode arg
     /\ data b = Base64.encode (Base64.decode arg)
     /\ (data b = arg <-> canonical arg))
  /\ ~ canonical "dGVzdA"
  /\ Base64.encode (Base64.decode "dGVzdA") <> "dGVzdA".
Proof.
  assert (forall s, Base64.encode (Base64.decode s) = s <-> canonical s)
    as Hcanon.
  { intros s. split.
    - intros H. exists (Base64.decode s). symmetry. exact H.
    - intros [bs ->]. rewrite Base64Facts.decode_encode. reflexivity. }
  split; [|split].
  - destruct (session_chain now0 (acts ++ [CallAddBlock arg now]) h0)
      as (c & h1 & h & evs & _ & Hrun & Hevs & _).
    rewrite abstract_run_app in Hevs. cbn in Hevs.
    eexists c, _, h, _. split; [rewrite Hrun, Hevs; reflexivity|].
    split; [reflexivity|]. split; [reflexivity|]. apply Hcanon.
  - intros H. apply Hcanon in H. vm_compute in H. discriminate.
  - vm_compute. discriminate.
Qed.

(** *** Timestamps for any clock reading *)

Lemma month_start_range (mn l : Z) :
  0 <= mn <= 11 -> 0 <= l <= 1 -> 0 <= JSDate.month_start mn l <= 335.
Proof.
  intros Hmn Hl.
  assert (mn = 0 \/ mn = 1 \/ mn = 2 \/ mn = 3 \/ mn = 4 \/ mn = 5
          \/ mn = 6 \/ mn = 7 \/ mn = 8 \/ mn = 9 \/ mn = 10
          \/ mn = 11) as Hcases by lia.
  repeat (destruct Hcases as [->|Hcases]; [cbn; lia|]).
  subst mn. cbn. lia.
Qed.

(** [Date.UTC] of the fields of a time value in a year from 0 to 99 lands
    between 1900 and 1999, well inside the range of time values. *)
Lemma UTC_of_fields_two_digit_year (t : Z) :
  0 <= JSDate.YearFromTime t <= 99 ->
  exists ms,
    JSDate.UTC (JSDate.YearFromTime t) (JSDate.MonthFromTime t)
               (JSDate.DateFromTime t) (JSDate.HourFromTime t)
               (JSDate.MinFromTime t) (JSDate.SecFromTime t)
    = Num ms.
Proof.
  intros Hy. unfold JSDate.UTC.
  replace ((0 <=? JSDate.YearFromTime t) && (JSDate.YearFromTime t <=? 99))
    with true by (symmetry; apply andb_true_iff; lia).
  rewrite JSDateFacts.MakeTime_of_time.
  pose proof (JSDateFacts.MonthFromTime_range t) as Hm.
  pose proof (JSDateFacts.month_start_date t) as Hd.
  pose proof (JSDateFacts.DayWithinYear_range t) as Hw.
  assert (0 <= JSDate.InLeapYear t <= 1) as Hl
    by (unfold JSDate.InLeapYear; case_match; lia).
  pose proof (month_start_range _ _ Hm Hl) as Hs.
  unfold JSDate.MakeDay.
  replace (JSDate.MonthFromTime t / 12) with 0
    by (Z.to_euclidean_division_equations; lia).
  replace (JSDate.MonthFromTime t mod 12) with (JSDate.MonthFromTime t)
    by (Z.to_euclidean_division_equations; lia).
  rewrite Z.add_0_r.
  set (y := 1900 + JSDate.YearFromTime t) in *.
  assert (0 <= (if JSDate.DaysInYear y =? 365 then 0 else 1) <= 1) as Hl'
    by (case_match; lia).
  pose proof (month_start_range _ _ Hm Hl') as Hs'.
  assert (-26000 <= JSDate.DayFromYear y <= 11000) as Hdy.
  { unfold JSDate.DayFromYear. subst y.
    Z.to_euclidean_division_equations; lia. }
  unfold JSDate.TimeClip, JSDate.MakeDate.
  match goal with |- context [ JSDate.maxTime <? ?v ] =>
    destruct (Z.ltb_spec JSDate.maxTime v) as [Hbig|_]; [|eauto] end.
  exfalso. revert Hbig.
  unfold JSDate.TimeWithinDay, JSDate.msFromTime, JSDate.msPerDay,
    JSDate.msPerSecond, JSDate.maxTime.
  generalize (JSDate.month_start (JSDate.MonthFromTime t)
                (if JSDate.DaysInYear y =? 365 then 0 else 1)) Hs'.
  generalize (JSDate.month_start (JSDate.MonthFromTime t)
                (JSDate.InLeapYear t)) Hs Hd.
  generalize (JSDate.DateFromTime t) (JSDate.DayFromYear y) Hdy
    (JSDate.DayWithinYear t) Hw.
  intros dt dy Hdy' dw Hdw ms1 Hms1 Hdt ms2 Hms2.
  Z.to_euclidean_division_equations; lia.
Qed.

Lemma new_block_stamped (i : Z) (d : list byte)
    (prev : option BlockChainBlock) (now : Z) :
  valid_time now -> stamped now (new_BlockChainBlock i d prev now).
Proof.
  intros Hv. unfold stamped.
  destruct (decide (0 <= getUTCFullYear now <= 99)) as [Hy|Hy].
  - destruct (UTC_of_fields_two_digit_year now Hy) as [ms Hms].
    exists ms. split; [exact Hms|]. split; [eapply UTC_multiple, Hms|].
    intros Hnow. pose proof (JSDateFacts.epoch_year now Hnow).
    unfold getUTCFullYear in Hy. lia.
  - exists (now - now mod 1000).
    split; [apply new_block_timestamp; assumption|].
    split; Z.to_euclidean_division_equations; lia.
Qed.

Lemma abstract_run_stamped (gen : BlockChainBlock) (acts : list action) :
  Forall action_valid acts ->
  forall s : abstract_state,
    Forall2 stamped (readings acts) (added (fst (abstract_run gen s acts))).
Proof.
  induction 1 as [|a acts Ha _ IH]; intros s; [constructor|].
  cbn [abstract_run fst snd].
  destruct a as [arg now| |k]; cbn [abstract_step].
  - cbn [fst snd added readings]. constructor; [|apply IH].
    apply new_block_stamped. exact Ha.
  - cbn [fst snd added readings]. apply IH.
  - destruct (a_views s !! k); cbn [fst snd added readings]; apply IH.
Qed.

(** C10, as stated, fails: the timestamp is negative when the clock reads
    an instant before the UNIX epoch.  A chain created at
    1969-12-31T23:59:59.999Z has a genesis anchor with timestamp -1000,
    and so has a block appended at that instant. *)
Lemma timestamp_negative_counterexample :
  exists c evs h b,
    session (-1) [CallAddBlock "dGVzdDE=" (-1)] empty_heap
    = Some ((c, evs), h)
    /\ stored c h = Some [b]
    /\ timestamp (genesisBlock c) = Num (-1000)
    /\ timestamp b = Num (-1000)
    /\ ~ whole_seconds (genesisBlock c)
    /\ ~ whole_seconds b.
Proof.
  eexists _, _, _, _.
  split; [vm_compute; reflexivity|].
  split; [vm_compute; reflexivity|].
  split; [vm_compute; reflexivity|].
  split; [vm_compute; reflexivity|].
  split; intros (ms & Hms & Hpos & _); vm_compute in Hms;
    injection Hms as <-; lia.
Qed.

(** C10, amended.  For every block ever constructed, genesis anchor and
    appended blocks alike, at a clock reading a [Date] can hold, the
    stored timestamp is an integer number of milliseconds that is
    divisible by 1000, and it is non-negative when the clock reading at
    its construction is at or after the UNIX epoch; this holds after any
    calls on the chain. *)
Theorem timestamps_multiples_of_1000 (h0 : heap) (now0 : Z)
    (acts : list action) :
  valid_time now0 ->
  Forall action_valid acts ->
  exists c evs h,
    session now0 acts h0 = Some ((c, evs), h)
    /\ stored c h = Some (added evs)
    /\ stamped now0 (genesisBlock c)
    /\ Forall2 stamped (readings acts) (added evs).
Proof.
  intros Hnow0 Hacts.
  destruct (session_chain now0 acts h0)
    as (c & h1 & h & evs & _ & Hrun & Hevs & Hg & Hst & _).
  exists c, evs, h. do 2 (split; [assumption|]). split.
  - rewrite Hg. apply new_block_stamped. exact Hnow0.
  - rewrite Hevs. apply abstract_run_stamped. exact Hacts.
Qed.

Lemma timestamps_multiples_of_1000_witness :
  valid_time (-1)
  /\ Forall action_valid driver
  /\ exists c evs h,
       session (-1) driver empty_heap = Some ((c, evs), h)
       /\ stored c h = Some (added evs)
       /\ stamped (-1) (genesisBlock c)
       /\ Forall2 stamped (readings driver) (added evs).
Proof.
  assert (valid_time (-1)) as H0
    by (unfold valid_time, JSDate.maxTime; lia).
  assert (Forall action_valid driver) as Hd
    by (repeat constructor; unfold valid_time, JSDate.maxTime; lia).
  split; [exact H0|]. split; [exact Hd|].
  exact (timestamps_multiples_of_1000 empty_heap (-1) driver H0 Hd).
Defined.

(** * Further properties *)

(** ** The hash input determines the fields *)

Lemma hash_is_digest_of_input (b : BlockChainBlock) :
  hash b = sha256_base64 (hash_input b).
Proof. apply hash_unfold. Qed.

Lemma no_LF_split (s1 s2 r1 r2 : string) :
  no_LF s1 -> no_LF s2 ->
  s1 +:+ LF +:+ r1 = s2 +:+ LF +:+ r2 ->
  s1 = s2 /\ r1 = r2.
Proof.
  unfold LF. revert s2.
  induction s1 as [|c1 s1 IH]; intros [|c2 s2] H1 H2 Heq; cbn in *.
  - injection Heq as Heq. split; [reflexivity | exact Heq].
  - injection Heq as Hc _. destruct H2 as [H2 _]. exfalso. apply H2.
    rewrite <- Hc. reflexivity.
  - injection Heq as Hc _. destruct H1 as [H1 _]. exfalso. apply H1.
    rewrite Hc. reflexivity.
  - injection Heq as Hc Heq. destruct H1 as [_ H1]. destruct H2 as [_ H2].
    destruct (IH s2 H1 H2 Heq) as [Hs Hr]. subst. split; reflexivity.
Qed.

Lemma string_of_uint_no_LF (d : Decimal.uint) :
  no_LF (NilEmpty.string_of_uint d).
Proof.
  induction d; cbn [NilEmpty.string_of_uint no_LF];
    try exact I; (split; [vm_compute; discriminate | assumption]).
Qed.

Lemma Z_to_string_no_LF (z : Z) : no_LF (Z_to_string z).
Proof.
  unfold Z_to_string, NilZero.string_of_int, NilZero.string_of_uint.
  destruct (Z.to_int z) as [d|d]; [|split; [vm_compute; discriminate|]];
    (destruct d; [repeat split; vm_compute; discriminate
                 | apply string_of_uint_no_LF ..]).
Qed.

Lemma number_to_string_no_LF (x : number) : no_LF (number_to_string x).
Proof.
  destruct x as [z|]; [apply Z_to_string_no_LF|].
  repeat split; vm_compute; discriminate.
Qed.

Lemma encode_sextet_no_LF (n : Z) : char_code (Base64.encode_sextet n) <> 10.
Proof.
  unfold Base64.encode_sextet. generalize (Z.to_nat n). intros k.
  do 64 (destruct k as [|k]; [vm_compute; discriminate|]).
  vm_compute. discriminate.
Qed.

Lemma encode_no_LF (bs : list byte) : no_LF (Base64.encode bs).
Proof.
  induction bs as [|b0|b0 b1|b0 b1 b2 rest IH] using list_ind3;
    cbn [Base64.encode no_LF];
    repeat split;
    try apply encode_sextet_no_LF; try exact IH; vm_compute; discriminate.
Qed.

Lemma previousHash_no_LF (b : BlockChainBlock) : no_LF (previousHash b).
Proof.
  unfold previousHash. destruct (priv_previousBlock b) as [p|]; [|exact I].
  rewrite or_else_same, hash_unfold. apply encode_no_LF.
Qed.

Lemma to_int_not_nil (z : Z) :
  Z.to_int z <> Decimal.Pos Decimal.Nil
  /\ Z.to_int z <> Decimal.Neg Decimal.Nil.
Proof.
  destruct z as [|p|p]; cbn; split; try discriminate;
    intros [= H]; revert H; apply DecimalPos.Unsigned.to_uint_nonnil.
Qed.

Lemma Z_to_string_inj (z1 z2 : Z) :
  Z_to_string z1 = Z_to_string z2 -> z1 = z2.
Proof.
  unfold Z_to_string. intros H.
  destruct (to_int_not_nil z1) as [Hp1 Hn1].
  destruct (to_int_not_nil z2) as [Hp2 Hn2].
  pose proof (NilZero.isi _ Hp1 Hn1) as H1.
  pose proof (NilZero.isi _ Hp2 Hn2) as H2.
  rewrite H, H2 in H1. injection H1 as H1.
  apply DecimalZ.to_int_inj. symmetry. exact H1.
Qed.

Lemma number_to_string_inj (x1 x2 : number) :
  number_to_string x1 = number_to_string x2 -> x1 = x2.
Proof.
  assert (forall z, Z_to_string z <> "NaN") as Hnan.
  { intros z H. unfold Z_to_string in H.
    destruct (to_int_not_nil z) as [Hp Hn].
    pose proof (NilZero.isi _ Hp Hn) as Hi. rewrite H in Hi.
    vm_compute in Hi. discriminate. }
  destruct x1 as [z1|], x2 as [z2|]; cbn; intros H.
  - f_equal. apply Z_to_string_inj. exact H.
  - exfalso. apply (Hnan z1). exact H.
  - exfalso. apply (Hnan z2). symmetry. exact H.
  - reflexivity.
Qed.

Lemma encode_inj (bs1 bs2 : list byte) :
  Base64.encode bs1 = Base64.encode bs2 -> bs1 = bs2.
Proof.
  intros H. rewrite <- (Base64Facts.decode_encode bs1),
    <- (Base64Facts.decode_encode bs2), H. reflexivity.
Qed.

Lemma hash_input_fields (b1 b2 : BlockChainBlock) :
  hash_input b1 = hash_input b2 ->
  index b1 = index b2
  /\ previousHash b1 = previousHash b2
  /\ timestamp b1 = timestamp b2
  /\ priv_data b1 = priv_data b2.
Proof.
  unfold hash_input. intros H.
  apply no_LF_split in H as [Hi H]; try apply Z_to_string_no_LF.
  apply no_LF_split in H as [Hp H]; try apply previousHash_no_LF.
  apply no_LF_split in H as [Ht Hd]; try apply number_to_string_no_LF.
  split; [apply Z_to_string_inj; exact Hi|].
  split; [exact Hp|].
  split; [apply number_to_string_inj; exact Ht|].
  apply encode_inj. exact Hd.
Qed.

(** X1.  The text that is hashed can be read back: two blocks with the
    same hash input have the same index, the same [previousHash], the
    same timestamp and the same payload, because the four fields are
    separated by line feeds and none of them contains one. *)
Theorem hash_input_determines_fields (b1 b2 : BlockChainBlock) :
  hash_input b1 = hash_input b2 ->
  index b1 = index b2
  /\ previousHash b1 = previousHash b2
  /\ timestamp b1 = timestamp b2
  /\ priv_data b1 = priv_data b2.
Proof. apply hash_input_fields. Qed.

Lemma hash_input_determines_fields_witness :
  hash_input (genesis 0) = hash_input (genesis 999)
  /\ index (genesis 0) = index (genesis 999)
  /\ previousHash (genesis 0) = previousHash (genesis 999)
  /\ timestamp (genesis 0) = timestamp (genesis 999)
  /\ priv_data (genesis 0) = priv_data (genesis 999).
Proof.
  assert (hash_input (genesis 0) = hash_input (genesis 999)) as H
    by (vm_compute; reflexivity).
  split; [exact H|].
  exact (hash_input_determines_fields (genesis 0) (genesis 999) H).
Defined.

(** ** Tamper evidence *)

Lemma byte_to_of_Z (z : Z) : 0 <= z < 256 -> byte_to_Z (byte_of_Z z) = z.
Proof.
  intros Hz. unfold byte_to_Z, byte_of_Z. rewrite Z.mod_small by exact Hz.
  destruct (Byte.of_N (Z.to_N z)) as [b|] eqn:Hb.
  - apply Byte.to_of_N in Hb. cbn. rewrite Hb. lia.
  - apply Byte.of_N_None_iff in Hb. lia.
Qed.

Lemma char_code_range (c : ascii) : 0 <= char_code c < 256.
Proof. unfold char_code. pose proof (N_ascii_bounded c). lia. Qed.

Lemma char_code_inj (c1 c2 : ascii) : char_code c1 = char_code c2 -> c1 = c2.
Proof.
  unfold char_code. intros H. apply N2Z.inj in H.
  rewrite <- (ascii_N_embedding c1), <- (ascii_N_embedding c2), H.
  reflexivity.
Qed.

Lemma utf8_encode_inj (s1 s2 : string) :
  ascii_only s1 -> ascii_only s2 ->
  utf8_encode s1 = utf8_encode s2 -> s1 = s2.
Proof.
  revert s2. induction s1 as [|c1 s1 IH]; intros [|c2 s2] H1 H2;
    cbn [utf8_encode ascii_only] in *.
  - reflexivity.
  - destruct H2 as [H2 _]. unfold utf8_encode_char.
    destruct (Z.ltb_spec (char_code c2) 128); [discriminate | lia].
  - destruct H1 as [H1 _]. unfold utf8_encode_char.
    destruct (Z.ltb_spec (char_code c1) 128); [discriminate | lia].
  - destruct H1 as [Hc1 H1]. destruct H2 as [Hc2 H2].
    unfold utf8_encode_char.
    destruct (Z.ltb_spec (char_code c1) 128); [|lia].
    destruct (Z.ltb_spec (char_code c2) 128); [|lia].
    cbn [app]. intros [= Hb Hrest].
    f_equal; [|apply IH; assumption].
    apply char_code_inj.
    rewrite <- (byte_to_of_Z (char_code c1)), <- (byte_to_of_Z (char_code c2)),
      Hb by apply char_code_range.
    reflexivity.
Qed.

Lemma same_hash_same_input (b1 b2 : BlockChainBlock) :
  hash b1 = hash b2 -> hash_input b1 = hash_input b2 \/ collide b1 b2.
Proof.
  intros H. destruct (string_dec (hash_input b1) (hash_input b2)) as [He|Hne];
    [left; exact He|].
  right. split.
  - intros Hu. apply Hne. apply utf8_encode_inj; [| |exact Hu];
      apply hash_input_ascii.
  - rewrite !hash_is_digest_of_input in H. apply encode_inj. exact H.
Qed.

Lemma tamper_evident (b1 : BlockChainBlock) :
  forall b2 : BlockChainBlock,
    hash b1 = hash b2 ->
    b1 = b2
    \/ exists p1 p2,
         In p1 (ancestors b1) /\ In p2 (ancestors b2) /\ collide p1 p2.
Proof.
  induction b1 as [i d ts|i d p ts IH] using BlockChainBlock_chain_ind;
    intros [i2 d2 prev2 ts2] H.
  - destruct (same_hash_same_input _ _ H) as [Hin|Hc].
    + apply hash_input_fields in Hin as (Hi & Hp & Ht & Hd). cbn in Hi, Ht, Hd.
      left. subst. f_equal.
      destruct prev2 as [p2|]; [|reflexivity].
      exfalso. unfold previousHash in Hp. cbn in Hp.
      rewrite or_else_same in Hp. symmetry in Hp.
      exact (hash_nonempty p2 Hp).
    + right. exists (Block i d None ts), (Block i2 d2 prev2 ts2).
      split; [left; reflexivity|]. split; [|exact Hc].
      destruct prev2; left; reflexivity.
  - destruct (same_hash_same_input _ _ H) as [Hin|Hc].
    + apply hash_input_fields in Hin as (Hi & Hp & Ht & Hd). cbn in Hi, Ht, Hd.
      unfold previousHash in Hp. cbn in Hp. rewrite or_else_same in Hp.
      destruct prev2 as [p2|].
      * rewrite or_else_same in Hp.
        destruct (IH p2 Hp) as [->|(q1 & q2 & Hq1 & Hq2 & Hc)].
        -- left. subst. reflexivity.
        -- right. exists q1, q2.
           split; [right; exact Hq1|]. split; [right; exact Hq2 | exact Hc].
      * exfalso. exact (hash_nonempty p Hp).
    + right. exists (Block i d (Some p) ts), (Block i2 d2 prev2 ts2).
      split; [left; reflexivity|]. split; [|exact Hc].
      destruct prev2; left; reflexivity.
Qed.

(** X2 (tamper evidence).  If two blocks have the same [hash], then they
    are the same block with the same predecessors all the way back (same
    indices, payloads and timestamps), or two of their predecessors give a
    collision of SHA-256: different texts with the same digest. *)
Theorem same_hash_same_history (b1 b2 : BlockChainBlock) :
  hash b1 = hash b2 ->
  b1 = b2
  \/ exists p1 p2,
       In p1 (ancestors b1) /\ In p2 (ancestors b2) /\ collide p1 p2.
Proof. apply tamper_evident. Qed.

Lemma same_hash_same_history_witness :
  hash (genesis 0) = hash (genesis 999)
  /\ (genesis 0 = genesis 999
      \/ exists p1 p2,
           In p1 (ancestors (genesis 0)) /\ In p2 (ancestors (genesis 999))
           /\ collide p1 p2).
Proof.
  assert (hash (genesis 0) = hash (genesis 999)) as H
    by (vm_compute; reflexivity).
  split; [exact H|].
  exact (same_hash_same_history (genesis 0) (genesis 999) H).
Defined.

(** ** What any iterator returns *)

Lemma result_at_consistent (snap : list BlockChainBlock) (j : Z) :
  0 <= j ->
  (done (result_at snap j) = true <-> value (result_at snap j) = None).
Proof.
  intros Hj. unfold result_at, array_get. cbn [done value].
  destruct (Z.ltb_spec j 0); [lia|].
  rewrite lookup_ge_None, Z.leb_le. lia.
Qed.

(** An iterator that the client still has to open, after [j] others:
    what it returns is read off the blocks stored when it is opened. *)
Lemma abstract_run_steps_new (gen : BlockChainBlock) (acts : list action) :
  forall (s : abstract_state) (j : nat),
    let final := a_blocks (snd (abstract_run gen s acts)) in
    let n := (length (a_blocks s) + blocks_at_opening j acts)%nat in
    (n <= length final)%nat
    /\ exists m : nat,
         steps_of (length (a_views s) + j) (fst (abstract_run gen s acts))
         = map (result_at (take n final)) (seqZ 0 (Z.of_nat m)).
Proof.
  induction acts as [|a acts IH]; intros s j.
  - cbn. split; [lia|]. exists 0%nat. reflexivity.
  - cbn [abstract_run fst snd].
    destruct a as [data now| |k']; cbn [abstract_step blocks_at_opening].
    + cbn [fst snd steps_of].
      set (s' := {| a_blocks := a_blocks s
                      ++ [appended gen (a_blocks s) data now];
                    a_views := a_views s |}).
      specialize (IH s' j). cbn zeta in IH.
      cbn [s' a_blocks a_views] in IH. rewrite length_app in IH.
      cbn [length] in IH.
      replace (length (a_blocks s) + 1 + blocks_at_opening j acts)%nat
        with (length (a_blocks s) + S (blocks_at_opening j acts))%nat
        in IH by lia.
      exact IH.
    + cbn [fst snd steps_of].
      set (s' := {| a_blocks := a_blocks s;
                    a_views := a_views s
                      ++ [{| snapshot := a_blocks s; position := 0 |}] |}).
      destruct j as [|j].
      * rewrite !Nat.add_0_r.
        pose proof (abstract_run_blocks gen acts s') as Hfinal.
        cbn [s' a_blocks] in Hfinal. fold s' in Hfinal.
        cbn zeta. rewrite Hfinal, take_app_length, length_app.
        split; [lia|].
        exists (count_next (length (a_views s)) acts).
        apply (abstract_run_steps gen acts s' _
                 {| snapshot := a_blocks s; position := 0 |}).
        cbn [s' a_views]. apply list_lookup_middle. reflexivity.
      * specialize (IH s' j). cbn zeta in IH.
        cbn [s' a_blocks a_views] in IH. rewrite length_app in IH.
        cbn [length] in IH.
        replace (length (a_views s) + 1 + j)%nat
          with (length (a_views s) + S j)%nat in IH by lia.
        exact IH.
    + destruct (a_views s !! k') as [v'|] eqn:Hv'; cbn [fst snd steps_of].
      * apply lookup_lt_Some in Hv'.
        destruct (Nat.eqb_spec (length (a_views s) + j) k') as [Heq|_]; [lia|].
        set (s' := {| a_blocks := a_blocks s;
                      a_views := <[k' := {| snapshot := snapshot v';
                                            position := position v' + 1 |}]>
                                   (a_views s) |}).
        specialize (IH s' j). cbn zeta in IH.
        cbn [s' a_blocks a_views] in IH. rewrite length_insert in IH.
        exact IH.
      * exact (IH s j).
Qed.

(** X3.  In any session, what the [next] calls on the [k]-th iterator
    return is read off the blocks that were stored when that iterator was
    opened, which are a prefix of the blocks the chain ends up storing:
    call number [j] (from 0) returns the [j]-th stored block with [done]
    false while [j] is below the number of appends made before the
    iterator was opened, and [done] true with no value from then on.  So
    a value is present exactly when [done] is false, and an iterator that
    has reported the end never returns a block again. *)
Theorem iterator_returns_chain_prefix (h0 : heap) (now0 : Z)
    (acts : list action) (k : nat) :
  exists c evs h,
    session now0 acts h0 = Some ((c, evs), h)
    /\ stored c h = Some (added evs)
    /\ (blocks_at_opening k acts <= length (added evs))%nat
    /\ steps_of k evs
       = map (result_at (take (blocks_at_opening k acts) (added evs)))
             (seqZ 0 (Z.of_nat (length (steps_of k evs))))
    /\ Forall (fun r => done r = true <-> value r = None) (steps_of k evs).
Proof.
  destruct (session_chain now0 acts h0)
    as (c & h1 & h & evs & _ & Hrun & Hevs & _ & Hst & _ & _).
  destruct (abstract_run_steps_new (genesis now0) acts initial k)
    as (Hle & m & Hsteps).
  rewrite abstract_run_blocks in Hle, Hsteps.
  cbn [initial a_blocks a_views app length Nat.add] in Hle, Hsteps.
  rewrite <- Hevs in Hle, Hsteps.
  exists c, evs, h.
  split; [exact Hrun|]. split; [exact Hst|]. split; [exact Hle|].
  split.
  - rewrite Hsteps at 1. rewrite Hsteps, length_map, length_seqZ.
    rewrite Z2Nat.id by lia. reflexivity.
  - rewrite Hsteps. apply Forall_forall. intros r Hr.
    apply list_elem_of_In, in_map_iff in Hr as (j & <- & Hj).
    apply list_elem_of_In, elem_of_seqZ in Hj.
    apply result_at_consistent. lia.
Qed.

Example blocks_at_opening_example :
  blocks_at_opening 0
    [ CallAsyncIterator; CallAddBlock "dGVzdDE=" 1700000000123; CallNext 0 ]
  = 0%nat
  /\ blocks_at_opening 1
       [ CallAsyncIterator; CallAddBlock "dGVzdDE=" 1700000000123;
         CallAsyncIterator; CallAddBlock "dGVzdDI=" 1700000001456 ]
     = 1%nat.
Proof. split; reflexivity. Qed.

(** ** Stored blocks and what [addBlock] returns *)

Lemma linked_previous (gen : BlockChainBlock) (bs : list BlockChainBlock)
    (i : nat) (b : BlockChainBlock) :
  linked gen bs -> bs !! i = Some b ->
  exists p, priv_previousBlock b = Some p
            /\ p = match i with
                   | O => gen
                   | S j => default gen (bs !! j)
                   end.
Proof. intros Hl Hb. destruct (Hl i b Hb) as [_ Hp]. eauto. Qed.

Lemma hash_decodes_to_digest (b : BlockChainBlock) :
  length (Base64.decode (hash b)) = 32%nat.
Proof.
  rewrite hash_unfold. unfold sha256_base64.
  rewrite Base64Facts.decode_encode. apply sha256_length.
Qed.

(** X4.  In any session every stored block refers to a previous block, so
    its [previousHash] is never the empty string: [hash] and
    [previousHash] of a stored block are both Base64 texts of 44
    characters, and [hash] decodes to a digest of 32 bytes. *)
Theorem stored_blocks_have_full_hashes (h0 : heap) (now0 : Z)
    (acts : list action) :
  exists c evs h,
    session now0 acts h0 = Some ((c, evs), h)
    /\ stored c h = Some (added evs)
    /\ Forall (fun b =>
                 is_Some (priv_previousBlock b)
                 /\ String.length (previousHash b) = 44%nat
                 /\ String.length (hash b) = 44%nat
                 /\ length (Base64.decode (hash b)) = 32%nat)
              (added evs).
Proof.
  destruct (session_chain now0 acts h0)
    as (c & h1 & h & evs & _ & Hrun & _ & _ & Hst & _ & Hl).
  exists c, evs, h. split; [exact Hrun|]. split; [exact Hst|].
  apply Forall_forall. intros b Hb.
  apply list_elem_of_lookup in Hb as (i & Hi).
  destruct (linked_previous _ _ _ _ Hl Hi) as (p & Hp & _).
  split; [rewrite Hp; eauto|].
  split; [rewrite (previousHash_of b p Hp); apply hash_length|].
  split; [apply hash_length | apply hash_decodes_to_digest].
Qed.

(** X5.  Whatever the chain has seen before, [addBlock] returns the block
    it has just stored at the end of the chain; the index of that block
    is the number of blocks stored before the call, and its previous
    block is the block stored last before the call, or the genesis anchor
    when there was none. *)
Theorem addBlock_returns_new_tail (h0 : heap) (now0 : Z)
    (acts : list action) (arg : string) (now : Z) :
  exists c evs h0' h b,
    session now0 acts h0 = Some ((c, evs), h0')
    /\ session now0 (acts ++ [CallAddBlock arg now]) h0
       = Some ((c, evs ++ [Added b]), h)
    /\ stored c h0' = Some (added evs)
    /\ stored c h = Some (added evs ++ [b])
    /\ index b = Z.of_nat (length (added evs))
    /\ priv_previousBlock b
       = Some (default (genesisBlock c) (last (added evs))).
Proof.
  destruct (session_chain now0 acts h0)
    as (c & h1 & h0' & evs & Hnew & Hrun & Hevs & Hg & Hst & _ & _).
  destruct (session_chain now0 (acts ++ [CallAddBlock arg now]) h0)
    as (c' & h1' & h & evs' & Hnew' & Hrun' & Hevs' & _ & Hst' & _ & Hl).
  rewrite Hnew in Hnew'. injection Hnew' as <- <-.
  rewrite abstract_run_app in Hevs'. cbn [fst] in Hevs'.
  rewrite <- Hevs in Hevs'. cbn [abstract_run abstract_step fst snd] in Hevs'.
  set (b := appended (genesis now0)
              (a_blocks (snd (abstract_run (genesis now0) initial acts)))
              arg now) in Hevs'.
  subst evs'. rewrite added_app in Hst', Hl. cbn [added] in Hst', Hl.
  exists c, evs, h0', h, b.
  do 4 (split; [assumption|]).
  assert ((added evs ++ [b]) !! length (added evs) = Some b) as Hb
    by (apply list_lookup_middle; reflexivity).
  destruct (Hl _ _ Hb) as [Hidx Hp]. split; [exact Hidx|].
  rewrite Hp, Hg. f_equal.
  destruct (added evs) as [|b0 bs] using rev_ind; [reflexivity|].
  rewrite length_app, last_snoc. cbn [length].
  replace (length bs + 1)%nat with (S (length bs)) by lia.
  rewrite <- app_assoc. cbn [app].
  rewrite list_lookup_middle by reflexivity. reflexivity.
Qed.

Lemma ancestors_previous (b p : BlockChainBlock) :
  priv_previousBlock b = Some p -> ancestors b = b :: ancestors p.
Proof. destruct b as [i d prev ts]. cbn. intros ->. reflexivity. Qed.

Lemma linked_ancestors (gen : BlockChainBlock) (bs : list BlockChainBlock) :
  linked gen bs ->
  forall (i : nat) (b : BlockChainBlock),
    bs !! i = Some b ->
    ancestors b = rev (take (S i) bs) ++ ancestors gen.
Proof.
  intros Hl. induction i as [|i IH]; intros b Hb.
  - destruct (Hl _ _ Hb) as [_ Hp].
    rewrite (ancestors_previous _ _ Hp).
    destruct bs as [|b0 bs]; [discriminate|].
    injection Hb as ->. reflexivity.
  - destruct (Hl _ _ Hb) as [_ Hp].
    destruct (lookup_lt_is_Some_2 bs i) as [p Hi].
    { apply lookup_lt_Some in Hb. lia. }
    rewrite Hi in Hp. cbn in Hp.
    rewrite (ancestors_previous _ _ Hp), (IH p Hi).
    rewrite (take_S_r bs (S i) b Hb), rev_app_distr. reflexivity.
Qed.

(** X6.  The private previous-block references mirror the stored order:
    following them from the block stored at position [i] visits the
    blocks at positions [i], [i - 1], ..., 0 and then the genesis
    anchor, where the references end. *)
Theorem previous_blocks_mirror_chain (h0 : heap) (now0 : Z)
    (acts : list action) (i : nat) :
  (i < count_adds acts)%nat ->
  exists c evs h b,
    session now0 acts h0 = Some ((c, evs), h)
    /\ stored c h = Some (added evs)
    /\ added evs !! i = Some b
    /\ ancestors b = rev (take (S i) (added evs)) ++ [genesisBlock c]
    /\ priv_previousBlock (genesisBlock c) = None.
Proof.
  intros Hi.
  destruct (session_chain now0 acts h0)
    as (c & h1 & h & evs & _ & Hrun & _ & Hg & Hst & Hlen & Hl).
  destruct (lookup_lt_is_Some_2 (added evs) i) as [b Hb]; [lia|].
  exists c, evs, h, b. do 3 (split; [assumption|]).
  rewrite Hg. split; [|reflexivity].
  apply (linked_ancestors _ _ Hl _ _ Hb).
Qed.

Lemma previous_blocks_mirror_chain_witness :
  (2 < count_adds driver)%nat
  /\ exists c evs h b,
       session 1700000000000 driver empty_heap = Some ((c, evs), h)
       /\ stored c h = Some (added evs)
       /\ added evs !! 2%nat = Some b
       /\ ancestors b = rev (take 3 (added evs)) ++ [genesisBlock c]
       /\ priv_previousBlock (genesisBlock c) = None.
Proof.
  split; [cbn; lia|].
  apply (previous_blocks_mirror_chain empty_heap 1700000000000 driver 2).
  cbn; lia.
Defined.

(** ** Two chains do not disturb each other *)

Lemma apart_sym (c : ArrayBlockChain) (its : list iterator)
    (c' : ArrayBlockChain) (its' : list iterator) :
  apart c its c' its' -> apart c' its' c its.
Proof.
  intros (Hb & H1 & H2 & Hc). split; [congruence|].
  split; [exact H2|]. split; [exact H1|].
  intros it' it Hi' Hi Heq. apply (Hc it it' Hi Hi'). congruence.
Qed.

(** A call on one chain leaves everything another chain and its
    iterators hold as it was, and what it allocates is new. *)
Lemma step_other (c : ArrayBlockChain) (its : list iterator)
    (c' : ArrayBlockChain) (its' : list iterator) (h : heap)
    (s s' : abstract_state) (a : action) (ev : event)
    (its1 : list iterator) (h1 : heap) :
  represents c its h s ->
  represents c' its' h s' ->
  apart c its c' its' ->
  step c its a h = Some ((ev, its1), h1) ->
  represents c' its' h1 s' /\ apart c its1 c' its'.
Proof.
  intros (Hb & Hv & Hn) (Hb' & Hv' & Hn') (Hbb & Hcp & Hcp' & Hcur) Hstep.
  destruct a as [arg now| |k]; cbn [step] in Hstep.
  - (* addBlock *)
    revert Hstep.
    cbv [addBlock get_previousBlock bind read_array push ret].
    rewrite Hb. cbv beta iota. rewrite Hb. intros [= <- <- <-].
    split; [|repeat split; assumption].
    split; [|split]; cbn [arrays cells].
    + rewrite lookup_insert_ne by exact Hbb. exact Hb'.
    + apply Forall2_same_length_lookup. split; [eapply Forall2_length, Hv'|].
      intros j it v Hj Hjv.
      destruct (Forall2_lookup_lr _ _ _ _ _ _ Hv' Hj Hjv) as (H1 & H2 & H3).
      split; [exact H1|]. split; [|exact H3].
      rewrite lookup_insert_ne; [exact H2|].
      rewrite Forall_forall in Hcp'. intros Heq.
      apply (Hcp' it); [eapply list_elem_of_lookup_2, Hj | congruence].
    + exact Hn'.
  - (* [Symbol.asyncIterator]() *)
    revert Hstep.
    cbv [asyncIterator bind read_array alloc_array alloc_cell ret].
    rewrite Hb. cbv beta iota. intros [= <- <- <-].
    pose proof (fresh_array_unused h) as Hfa.
    pose proof (fresh_cell_unused h) as Hfc.
    split.
    + split; [|split]; cbn [arrays cells].
      * rewrite lookup_insert_ne; [exact Hb'|].
        intros Heq. rewrite Heq, Hb' in Hfa. discriminate.
      * apply Forall2_same_length_lookup.
        split; [eapply Forall2_length, Hv'|].
        intros j it v Hj Hjv.
        destruct (Forall2_lookup_lr _ _ _ _ _ _ Hv' Hj Hjv) as (H1 & H2 & H3).
        split; [exact H1|]. split.
        -- rewrite lookup_insert_ne; [exact H2|].
           intros Heq. rewrite Heq, H2 in Hfa. discriminate.
        -- rewrite lookup_insert_ne; [exact H3|].
           intros Heq. rewrite Heq, H3 in Hfc. discriminate.
      * exact Hn'.
    + split; [exact Hbb|]. split; [|split; [exact Hcp'|]].
      * apply Forall_app. split; [exact Hcp|].
        constructor; [|constructor]. cbn [copyOfBlocks].
        intros Heq. rewrite Heq, Hb' in Hfa. discriminate.
      * intros it it' Hit Hit'. apply in_app_or in Hit as [Hit|Hit].
        -- apply Hcur; assumption.
        -- destruct Hit as [<-|[]]. cbn [cursorIndex].
           apply list_elem_of_In, list_elem_of_lookup in Hit' as (j & Hj).
           destruct (Forall2_lookup_l _ _ _ _ _ Hv' Hj) as (v & _ & _ & _ & H3).
           intros Heq. rewrite Heq, H3 in Hfc. discriminate.
  - (* next() *)
    destruct (its !! k) as [it|] eqn:Hit.
    + destruct (Forall2_lookup_l _ _ _ _ _ Hv Hit) as (v & Hview & _ & Ha & Hc).
      unfold bind in Hstep. rewrite (next_spec it h _ _ Ha Hc) in Hstep.
      revert Hstep. unfold ret. intros [= <- <- <-].
      split; [|repeat split; assumption].
      split; [|split]; cbn [arrays cells].
      * exact Hb'.
      * apply Forall2_same_length_lookup.
        split; [eapply Forall2_length, Hv'|].
        intros j it' v' Hj Hjv.
        destruct (Forall2_lookup_lr _ _ _ _ _ _ Hv' Hj Hjv) as (H1 & H2 & H3).
        split; [exact H1|]. split; [exact H2|].
        rewrite lookup_insert_ne; [exact H3|].
        apply (Hcur it it').
        -- apply list_elem_of_In. eapply list_elem_of_lookup_2, Hit.
        -- apply list_elem_of_In. eapply list_elem_of_lookup_2, Hj.
      * exact Hn'.
    + revert Hstep. unfold ret. intros [= <- <- <-].
      split; [|repeat split; assumption].
      split; [|split]; assumption.
Qed.

Lemma calls_on_false_cons (a : action) (calls : list (bool * action)) :
  calls_on false ((false, a) :: calls) = a :: calls_on false calls
  /\ calls_on true ((false, a) :: calls) = calls_on true calls
  /\ calls_on true ((true, a) :: calls) = a :: calls_on true calls
  /\ calls_on false ((true, a) :: calls) = calls_on false calls.
Proof. repeat split. Qed.

Lemma run_two_abstract (c1 c2 : ArrayBlockChain)
    (calls : list (bool * action)) :
  forall (its1 its2 : list iterator) (h : heap) (s1 s2 : abstract_state),
    represents c1 its1 h s1 ->
    represents c2 its2 h s2 ->
    apart c1 its1 c2 its2 ->
    exists its1' its2' h',
      run_two c1 c2 its1 its2 calls h
      = Some ((fst (abstract_run (genesisBlock c1) s1 (calls_on false calls)),
               fst (abstract_run (genesisBlock c2) s2 (calls_on true calls))),
              h')
      /\ represents c1 its1' h'
           (snd (abstract_run (genesisBlock c1) s1 (calls_on false calls)))
      /\ represents c2 its2' h'
           (snd (abstract_run (genesisBlock c2) s2 (calls_on true calls))).
Proof.
  induction calls as [|[[|] a] calls IH]; intros its1 its2 h s1 s2 H1 H2 Hap.
  - exists its1, its2, h. split; [reflexivity|]. split; assumption.
  - (* a call on the second chain *)
    destruct (step_abstract c2 its2 h s2 a H2) as (its2' & h' & Hstep & H2').
    destruct (step_other c2 its2 c1 its1 h s2 s1 a _ _ _ H2 H1
                (apart_sym _ _ _ _ Hap) Hstep) as [H1' Hap'].
    destruct (IH its1 its2' h' s1 _ H1' H2' (apart_sym _ _ _ _ Hap'))
      as (its1'' & its2'' & h'' & Hrun & Hr1 & Hr2).
    exists its1'', its2'', h''. split; [|split; assumption].
    cbn [run_two calls_on Bool.eqb abstract_run fst snd].
    unfold bind at 1. rewrite Hstep. cbn [fst snd].
    unfold bind at 1. rewrite Hrun. reflexivity.
  - (* a call on the first chain *)
    destruct (step_abstract c1 its1 h s1 a H1) as (its1' & h' & Hstep & H1').
    destruct (step_other c1 its1 c2 its2 h s1 s2 a _ _ _ H1 H2 Hap Hstep)
      as [H2' Hap'].
    destruct (IH its1' its2 h' _ s2 H1' H2' Hap')
      as (its1'' & its2'' & h'' & Hrun & Hr1 & Hr2).
    exists its1'', its2'', h''. split; [|split; assumption].
    cbn [run_two calls_on Bool.eqb abstract_run fst snd].
    unfold bind at 1. rewrite Hstep. cbn [fst snd].
    unfold bind at 1. rewrite Hrun. reflexivity.
Qed.

(** X7.  Chains made by two calls of [createNewBlockChain] are
    independent: however the calls on the two chains (appends, opening
    iterators, [next]) are interleaved, each chain returns and stores
    exactly what it would in a session of its own with its own calls. *)
Theorem chains_are_independent (h0 : heap) (now1 now2 : Z)
    (calls : list (bool * action)) :
  exists c1 c2 evs1 evs2 h,
    two_sessions now1 now2 calls h0 = Some ((c1, c2, evs1, evs2), h)
    /\ blocks c1 <> blocks c2
    /\ stored c1 h = Some (added evs1)
    /\ stored c2 h = Some (added evs2)
    /\ (exists c h', session now1 (calls_on false calls) h0
                     = Some ((c, evs1), h'))
    /\ (exists c h', session now2 (calls_on true calls) h0
                     = Some ((c, evs2), h')).
Proof.
  destruct (new_ArrayBlockChain_represents now1 h0)
    as (c1 & h1 & Hnew1 & Hg1 & H1).
  destruct (new_ArrayBlockChain_represents now2 h1)
    as (c2 & h2 & Hnew2 & Hg2 & H2).
  assert (blocks c1 <> blocks c2) as Hne.
  { revert Hnew2. cbv [new_ArrayBlockChain bind alloc_array ret].
    intros [= <- _]. cbn [blocks].
    destruct H1 as (Hb1 & _). pose proof (fresh_array_unused h1) as Hf.
    intros Heq. rewrite <- Heq, Hb1 in Hf. discriminate. }
  assert (represents c1 [] h2 initial) as H1'.
  { destruct H1 as (Hb1 & _). split; [|split; constructor].
    revert Hnew2. cbv [new_ArrayBlockChain bind alloc_array ret].
    intros [= Hc <-]. cbn [arrays]. subst c2. cbn [blocks] in Hne.
    rewrite lookup_insert_ne by congruence. exact Hb1. }
  assert (apart c1 [] c2 []) as Hap.
  { split; [exact Hne|]. split; [constructor|]. split; [constructor|].
    intros it it' []. }
  destruct (run_two_abstract c1 c2 calls [] [] h2 initial initial H1' H2 Hap)
    as (its1 & its2 & h & Hrun & (Hb1 & _) & (Hb2 & _)).
  rewrite Hg1, Hg2 in Hrun. rewrite Hg1 in Hb1. rewrite Hg2 in Hb2.
  fold (genesis now1) in Hrun, Hb1. fold (genesis now2) in Hrun, Hb2.
  rewrite abstract_run_blocks in Hb1, Hb2. cbn [initial a_blocks app] in Hb1, Hb2.
  destruct (session_chain now1 (calls_on false calls) h0)
    as (ca & ? & ha & evs1 & _ & Hs1 & He1 & _).
  destruct (session_chain now2 (calls_on true calls) h0)
    as (cb & ? & hb & evs2 & _ & Hs2 & He2 & _).
  rewrite <- He1, <- He2 in Hrun. rewrite <- He1 in Hb1. rewrite <- He2 in Hb2.
  exists c1, c2, evs1, evs2, h.
  split.
  { unfold two_sessions, createNewBlockChain, bind.
    rewrite Hnew1, Hnew2, Hrun. reflexivity. }
  split; [exact Hne|]. split; [exact Hb1|]. split; [exact Hb2|].
  split; eauto.
Qed.

(** ** The demonstration program *)

Lemma char_of_code_code (c : ascii) : char_of_code (char_code c) = c.
Proof.
  unfold char_of_code. rewrite Z.mod_small by apply char_code_range.
  unfold char_code. rewrite N2Z.id. apply ascii_N_embedding.
Qed.

(** Decoding the UTF-8 bytes of a string gives the string back. *)
Lemma utf8_decode_encode (s : string) : utf8_decode (utf8_encode s) = Some s.
Proof.
  induction s as [|c s IH]; [reflexivity|].
  cbn [utf8_encode]. unfold utf8_encode_char.
  pose proof (char_code_range c) as Hc.
  destruct (Z.ltb_spec (char_code c) 128) as [Hlt|Hge].
  - cbn [app utf8_decode]. rewrite byte_to_of_Z by lia.
    destruct (Z.ltb_spec (char_code c) 128); [|lia].
    rewrite IH. cbn. rewrite char_of_code_code. reflexivity.
  - cbn [app utf8_decode].
    rewrite !byte_to_of_Z by (Z.to_euclidean_division_equations; lia).
    destruct (Z.ltb_spec (192 + char_code c / 64) 128);
      [Z.to_euclidean_division_equations; lia|].
    replace ((192 + char_code c / 64 =? 194) || (192 + char_code c / 64 =? 195))
      with true
      by (symmetry; apply orb_true_iff; rewrite !Z.eqb_eq;
          Z.to_euclidean_division_equations; lia).
    replace ((128 <=? 128 + char_code c mod 64)
             && (128 + char_code c mod 64 <? 192))
      with true
      by (symmetry; apply andb_true_iff; rewrite Z.leb_le, Z.ltb_lt;
          Z.to_euclidean_division_equations; lia).
    rewrite IH. cbn [option_map]. do 2 f_equal.
    etransitivity; [|apply char_of_code_code]. f_equal.
    Z.to_euclidean_division_equations; lia.
Qed.

Lemma lookup_combine {A B : Type} (l : list A) (k : list B) :
  forall (i : nat) (x : A) (y : B),
    l !! i = Some x -> k !! i = Some y -> combine l k !! i = Some (x, y).
Proof.
  revert k. induction l as [|a l IH]; intros [|b k] [|i] x y Hl Hk;
    try discriminate; cbn in *.
  - congruence.
  - apply IH; assumption.
Qed.

Lemma combine_snoc {A B : Type} (l : list A) (k : list B) (x : A) (y : B) :
  length l = length k ->
  combine (l ++ [x]) (k ++ [y]) = combine l k ++ [(x, y)].
Proof.
  revert k. induction l as [|a l IH]; intros [|b k] Hlen;
    try discriminate; cbn in *; [reflexivity|].
  f_equal. apply IH. lia.
Qed.

Lemma print_blocks_spec (it : iterator) (snap : list BlockChainBlock)
    (ds : list string) :
  Forall2 (fun b d => priv_data b = utf8_encode d) snap ds ->
  forall (fuel : nat) (h : heap) (pos : nat),
    arrays h !! copyOfBlocks it = Some snap ->
    cells h !! cursorIndex it = Some (Z.of_nat pos) ->
    (length snap - pos < fuel)%nat ->
    exists h',
      print_blocks fuel it h
      = Some (map block_line (drop pos (combine snap ds)), h')
      /\ arrays h' = arrays h.
Proof.
  intros Hall.
  induction fuel as [|fuel IH]; intros h pos Ha Hc Hfuel; [lia|].
  cbn [print_blocks]. unfold bind at 1.
  rewrite (next_spec it h snap _ Ha Hc).
  unfold result_at at 1. cbn [done].
  pose proof (Forall2_length _ _ _ Hall) as Hlen.
  destruct (Z.leb_spec (Z.of_nat (length snap)) (Z.of_nat pos)) as [Hd|Hd].
  - rewrite drop_ge by (rewrite length_combine; lia).
    eexists. split; reflexivity.
  - destruct (lookup_lt_is_Some_2 snap pos ltac:(lia)) as [b Hb].
    destruct (lookup_lt_is_Some_2 ds pos ltac:(lia)) as [d Hdd].
    pose proof (Forall2_lookup_lr _ _ _ _ _ _ Hall Hb Hdd) as Hbd.
    set (h1 := Heap (arrays h)
                 (<[cursorIndex it := Z.of_nat pos + 1]> (cells h))).
    destruct (IH h1 (S pos)) as (h' & Hrun & Harr).
    + exact Ha.
    + cbn [h1 cells]. rewrite lookup_insert_eq. f_equal. lia.
    + lia.
    + exists h'. split; [|exact Harr].
      unfold result_at, array_get. cbn [value].
      destruct (Z.ltb_spec (Z.of_nat pos) 0); [lia|].
      rewrite Nat2Z.id, Hb. unfold data at 1.
      rewrite Base64Facts.decode_encode, Hbd, utf8_decode_encode.
      unfold bind. fold h1. rewrite Hrun. unfold ret.
      assert (combine snap ds !! pos = Some (b, d)) as Hcomb.
      { apply lookup_combine; assumption. }
      rewrite (drop_S _ _ _ Hcomb). reflexivity.
Qed.

Lemma main_loop_spec (fuel : nat) (c : ArrayBlockChain) (clock : nat -> Z)
    (data : list string) :
  forall (k : nat) (h : heap) (bs : list BlockChainBlock) (ds : list string),
    arrays h !! blocks c = Some bs ->
    Forall2 (fun b d => priv_data b = utf8_encode d) bs ds ->
    (length bs + length data < fuel)%nat ->
    exists h',
      main_loop fuel c clock k data h
      = Some (rounds (combine bs ds)
                (combine
                   (added (fst (abstract_run (genesisBlock c)
                                  {| a_blocks := bs; a_views := [] |}
                                  (main_calls clock k data))))
                   data),
              h').
Proof.
  induction data as [|d data IH]; intros k h bs ds Hb Hall Hfuel.
  - exists h. reflexivity.
  - set (s := {| a_blocks := bs; a_views := [] |}).
    assert (represents c [] h s) as Hrep.
    { split; [exact Hb|]. split; constructor. }
    destruct (addBlock_represents c [] h s
                (Base64.encode (utf8_encode d)) (clock k) Hrep)
      as (h1 & Hadd & Hrep1).
    cbn zeta in Hadd, Hrep1. cbn [s a_blocks a_views] in Hadd, Hrep1.
    set (b := appended (genesisBlock c) bs (Base64.encode (utf8_encode d))
                (clock k)) in *.
    destruct (asyncIterator_represents c [] h1 _ Hrep1)
      as (it & h2 & Hopen & Hrep2).
    cbn [a_blocks a_views app] in Hrep2.
    destruct Hrep2 as (Hb2 & Hv2 & _). cbn [a_blocks a_views] in Hb2, Hv2.
    apply Forall2_cons_1 in Hv2 as [(_ & Hcopy & Hcur) _].
    cbn [snapshot position] in Hcopy, Hcur.
    assert (Forall2 (fun b d => priv_data b = utf8_encode d)
              (bs ++ [b]) (ds ++ [d])) as Hall'.
    { apply Forall2_app; [exact Hall|]. constructor; [|constructor].
      apply Base64Facts.decode_encode. }
    destruct (print_blocks_spec it (bs ++ [b]) (ds ++ [d]) Hall' fuel h2 0%nat)
      as (h3 & Hprint & Harr).
    + exact Hcopy.
    + exact Hcur.
    + rewrite length_app. cbn [length] in *. lia.
    + rewrite drop_0 in Hprint.
      destruct (IH (S k) h3 (bs ++ [b]) (ds ++ [d])) as (h' & Hrest).
      * rewrite Harr. exact Hb2.
      * exact Hall'.
      * rewrite length_app. cbn [length] in *. lia.
      * exists h'.
        cbn [main_loop main_calls abstract_run abstract_step fst snd added
             combine rounds].
        cbn [s a_blocks a_views]. fold b.
        unfold bind at 1. rewrite Hadd.
        unfold bind at 1. rewrite Hopen.
        unfold bind at 1. rewrite Hprint.
        unfold bind at 1. rewrite Hrest. unfold ret.
        pose proof (Forall2_length _ _ _ Hall) as Hlen.
        rewrite (combine_snoc bs ds b d Hlen).
        reflexivity.
Qed.

Lemma flat_map_seq_shift {A : Type} (f : nat -> list A) (n : nat) :
  forall start : nat,
    flat_map f (seq (S start) n) = flat_map (fun i => f (S i)) (seq start n).
Proof.
  induction n as [|n IH]; intros start; [reflexivity|].
  cbn [seq flat_map]. rewrite IH. reflexivity.
Qed.

Lemma rounds_closed (rest : list (BlockChainBlock * string)) :
  forall shown : list (BlockChainBlock * string),
    rounds shown rest
    = flat_map (fun i => [] :: map block_line
                                 (take (length shown + S i) (shown ++ rest)))
               (seq 0 (length rest)).
Proof.
  induction rest as [|p rest IH]; intros shown; [reflexivity|].
  cbn [rounds length seq flat_map]. rewrite IH, flat_map_seq_shift.
  replace (shown ++ p :: rest) with ((shown ++ [p]) ++ rest)
    by (rewrite <- app_assoc; reflexivity).
  f_equal.
  - do 2 f_equal.
    replace (length shown + 1)%nat with (length (shown ++ [p]))
      by (rewrite length_app; reflexivity).
    rewrite take_app_length. reflexivity.
  - apply flat_map_ext. intros i. do 3 f_equal.
    rewrite length_app. cbn [length]. lia.
Qed.

Lemma main_calls_count (clock : nat -> Z) (data : list string) :
  forall k : nat, count_adds (main_calls clock k data) = length data.
Proof.
  induction data as [|d data IH]; intros k; cbn; [reflexivity|].
  rewrite IH. reflexivity.
Qed.

(** X8.  [main] run on any list [data] of strings ends, provided the
    inner loop may call [next] once more than there are strings.  For the
    [i]-th string it logs an empty line and then one line per block stored
    so far, blocks 0 to [i] in order; the line of block [j] carries its
    index, the [j]-th string of [data] exactly as it was given (UTF-8,
    Base64, and back), its [previousHash] and its [hash].  The blocks are
    those the [addBlock] calls of [main] produce in a session. *)
Theorem main_prints_every_block (h0 : heap) (clock : nat -> Z)
    (data : list string) (fuel : nat) :
  (length data < fuel)%nat ->
  exists c evs hs log h,
    session (clock 0%nat) (main_calls clock 1 data) h0 = Some ((c, evs), hs)
    /\ length (added evs) = length data
    /\ main_with fuel clock data h0 = Some (log, h)
    /\ log = flat_map
               (fun i => [] :: map block_line
                                   (take (S i) (combine (added evs) data)))
               (seq 0 (length data)).
Proof.
  intros Hfuel.
  destruct (session_chain (clock 0%nat) (main_calls clock 1 data) h0)
    as (c & h1 & hs & evs & Hnew & Hrun & Hevs & Hg & _ & Hlen & _).
  rewrite main_calls_count in Hlen.
  destruct (new_ArrayBlockChain_represents (clock 0%nat) h0)
    as (c' & h1' & Hnew' & _ & (Hb & _)).
  rewrite Hnew in Hnew'. injection Hnew' as <- <-.
  destruct (main_loop_spec fuel c clock data 1 h1 [] [] Hb
              ltac:(constructor) ltac:(cbn; lia)) as (h & Hmain).
  rewrite Hg in Hmain. fold initial in Hmain. rewrite <- Hevs in Hmain.
  exists c, evs, hs, (rounds [] (combine (added evs) data)), h.
  split; [exact Hrun|]. split; [exact Hlen|]. split.
  - unfold main_with, createNewBlockChain, bind. rewrite Hnew. exact Hmain.
  - rewrite rounds_closed. cbn [length Nat.add app].
    rewrite length_combine, Hlen, Nat.min_id. reflexivity.
Qed.

Lemma main_prints_every_block_witness :
  (length ["test1"; "test2"; "test3"] < 4)%nat
  /\ exists c evs hs log h,
       session (sample_clock 0%nat)
               (main_calls sample_clock 1 ["test1"; "test2"; "test3"])
               empty_heap
       = Some ((c, evs), hs)
       /\ length (added evs) = length ["test1"; "test2"; "test3"]
       /\ main_with 4 sample_clock ["test1"; "test2"; "test3"] empty_heap
          = Some (log, h)
       /\ log = flat_map
                  (fun i =>
                     [] :: map block_line
                             (take (S i)
                                (combine (added evs)
                                         ["test1"; "test2"; "test3"])))
                  (seq 0 (length ["test1"; "test2"; "test3"])).
Proof.
  split; [cbn; lia|].
  apply (main_prints_every_block empty_heap sample_clock
           ["test1"; "test2"; "test3"] 4).
  cbn; lia.
Defined.

(** What [main] logs with the sample clock: after each append, all blocks
    stored so far. *)
Example main_output :
  option_map fst (main 4 sample_clock empty_heap)
  = Some
      [ [];
        [ VString "Block"; VNumber 0; VString "test1";
          VString "TJB/eBA934CQknbmFfXQ+cF8aPyAL0n/tmYEZ2q62OE=";
          VString "02UZ8Cv/v9wR6mIHYpbzyxAA5f/C4FesGStsYCfXgr8=" ];
        [];
        [ VString "Block"; VNumber 0; VString "test1";
          VString "TJB/eBA934CQknbmFfXQ+cF8aPyAL0n/tmYEZ2q62OE=";
          VString "02UZ8Cv/v9wR6mIHYpbzyxAA5f/C4FesGStsYCfXgr8=" ];
        [ VString "Block"; VNumber 1; VString "test2";
          VString "02UZ8Cv/v9wR6mIHYpbzyxAA5f/C4FesGStsYCfXgr8=";
          VString "4aysoIY3ND8uQD/UecLowggYb1cqUyBllD7E54Wzz1c=" ];
        [];
        [ VString "Block"; VNumber 0; VString "test1";
          VString "TJB/eBA934CQknbmFfXQ+cF8aPyAL0n/tmYEZ2q62OE=";
          VString "02UZ8Cv/v9wR6mIHYpbzyxAA5f/C4FesGStsYCfXgr8=" ];
        [ VString "Block"; VNumber 1; VString "test2";
          VString "02UZ8Cv/v9wR6mIHYpbzyxAA5f/C4FesGStsYCfXgr8=";
          VString "4aysoIY3ND8uQD/UecLowggYb1cqUyBllD7E54Wzz1c=" ];
        [ VString "Block"; VNumber 2; VString "test3";
          VString "4aysoIY3ND8uQD/UecLowggYb1cqUyBllD7E54Wzz1c=";
          VString "6VrNiLwaRRT1Z2N051xVjyRXXU4V0qdC/nmgKddHTkY=" ] ].
Proof. vm_compute. reflexivity. Qed.

(** ** Timestamps follow the clock *)

Lemma clock_ok_timestamp (i : Z) (d : list byte)
    (prev : option BlockChainBlock) (now : Z) :
  clock_ok now ->
  timestamp (new_BlockChainBlock i d prev now) = Num (1000 * (now / 1000)).
Proof.
  intros [Hlo Hhi].
  replace (1000 * (now / 1000)) with (now - now mod 1000)
    by (Z.to_euclidean_division_equations; lia).
  apply new_block_timestamp.
  - unfold valid_time, JSDate.maxTime in *. lia.
  - pose proof (JSDateFacts.epoch_year now Hlo). unfold getUTCFullYear. lia.
Qed.

Lemma abstract_run_timestamps (gen : BlockChainBlock) (acts : list action) :
  Forall action_clock_ok acts ->
  forall s : abstract_state,
    map timestamp (added (fst (abstract_run gen s acts)))
    = map (fun now => Num (1000 * (now / 1000))) (readings acts).
Proof.
  induction 1 as [|a acts Ha _ IH]; intros s; [reflexivity|].
  cbn [abstract_run fst snd].
  destruct a as [arg now| |k]; cbn [abstract_step].
  - cbn [fst snd added readings map]. rewrite IH. f_equal.
    apply clock_ok_timestamp. exact Ha.
  - cbn [fst snd added readings]. apply IH.
  - destruct (a_views s !! k); cbn [fst snd added readings]; apply IH.
Qed.

(** X9.  When every clock reading is at or after the UNIX epoch, the
    timestamps of the stored blocks are, in chain order, the clock
    readings of the [addBlock] calls rounded down to a whole second and
    given in milliseconds, and the timestamp of the genesis anchor is the
    reading at creation rounded the same way.  So blocks appended within
    one second share a timestamp, and timestamps never decrease along the
    chain unless the clock runs backwards. *)
Theorem timestamps_are_truncated_readings (h0 : heap) (now0 : Z)
    (acts : list action) :
  clock_ok now0 ->
  Forall action_clock_ok acts ->
  exists c evs h,
    session now0 acts h0 = Some ((c, evs), h)
    /\ stored c h = Some (added evs)
    /\ timestamp (genesisBlock c) = Num (1000 * (now0 / 1000))
    /\ map timestamp (added evs)
       = map (fun now => Num (1000 * (now / 1000))) (readings acts).
Proof.
  intros Hnow0 Hacts.
  destruct (session_chain now0 acts h0)
    as (c & h1 & h & evs & _ & Hrun & Hevs & Hg & Hst & _).
  exists c, evs, h. do 2 (split; [assumption|]). split.
  - rewrite Hg. apply clock_ok_timestamp. exact Hnow0.
  - rewrite Hevs. apply abstract_run_timestamps. exact Hacts.
Qed.

Lemma timestamps_are_truncated_readings_witness :
  clock_ok 1700000000000
  /\ Forall action_clock_ok driver
  /\ exists c evs h,
       session 1700000000000 driver empty_heap = Some ((c, evs), h)
       /\ stored c h = Some (added evs)
       /\ timestamp (genesisBlock c) = Num (1000 * (1700000000000 / 1000))
       /\ map timestamp (added evs)
          = map (fun now => Num (1000 * (now / 1000))) (readings driver).
Proof.
  assert (clock_ok 1700000000000) as H0
    by (unfold clock_ok, JSDate.maxTime; lia).
  assert (Forall action_clock_ok driver) as Hd
    by (repeat constructor; unfold clock_ok, JSDate.maxTime; lia).
  split; [exact H0|]. split; [exact Hd|].
  exact (timestamps_are_truncated_readings
           empty_heap 1700000000000 driver H0 Hd).
Defined.

(** ** Feeding a block's data back *)

(** X10.  The [data] text of any block, from this chain or another, can be
    passed to [addBlock] as it is: the new block holds the same payload
    bytes and its [data] accessor returns the same text. *)
Theorem data_can_be_resubmitted (h0 : heap) (now0 : Z) (acts : list action)
    (b0 : BlockChainBlock) (now : Z) :
  exists c evs h b,
    session now0 (acts ++ [CallAddBlock (data b0) now]) h0
    = Some ((c, evs ++ [Added b]), h)
    /\ priv_data b = priv_data b0
    /\ data b = data b0.
Proof.
  destruct (session_chain now0 (acts ++ [CallAddBlock (data b0) now]) h0)
    as (c & h1 & h & evs & _ & Hrun & Hevs & _).
  rewrite abstract_run_app in Hevs. cbn in Hevs.
  eexists c, _, h, _. split; [rewrite Hrun, Hevs; reflexivity|].
  assert (Base64.decode (data b0) = priv_data b0) as Hd
    by apply Base64Facts.decode_encode.
  split.
  - exact Hd.
  - unfold data at 1. unfold appended, new_BlockChainBlock.
    cbn [priv_data]. rewrite Hd. reflexivity.
Qed.
